(** * mst.mdsplus: shot numbers, the per-server session table and the
      on-disk result cache

    A shallow embedding of [mst/mdsplus.py].  Python integers are [Z]
    (Python 2 [/] on integers is floor division and [%] takes the sign of
    the divisor, as [Z.div] and [Z.modulo] do), byte strings are [string],
    the three module-level dictionaries are [gmap]s keyed by the server
    address, and every function that touches the dictionaries, the
    network or the disk is a computation in a state-and-exception monad
    over an explicit [world]. *)

From Stdlib Require Import ZArith Ascii String List Lia.
From stdpp Require Import gmap strings pretty.

Local Open Scope Z_scope.
#[local] Set Warnings "-register-all".

(** ** Exceptions and results *)

(** The exception classes that the modelled code and its collaborators
    raise.  [KeyboardInterrupt] and [SystemExit] do not derive from
    [Exception]: a bare [except:] catches them, [except Exception:] does
    not. *)
Inductive exn_class :=
  | ValueError | TypeError | IndexError | KeyError | NameError
  | AttributeError | AssertionError | IOError | OSError | OverflowError
  | UnpicklingError | MdsException
  | KeyboardInterrupt | SystemExit.

Record exn := Exn { exn_cls : exn_class; exn_msg : string }.

Definition derives_Exception (e : exn) : bool :=
  match exn_cls e with
  | KeyboardInterrupt | SystemExit => false
  | _ => true
  end.

Inductive result (A : Type) :=
  | Ok (a : A)
  | Raise (e : exn).
Arguments Ok {A} a.
Arguments Raise {A} e.

(** ** Calendar dates ([datetime.date]) *)

Record date := Date { year : Z; month : Z; day : Z }.

Definition is_leap (y : Z) : bool :=
  (y mod 4 =? 0) && (negb (y mod 100 =? 0) || (y mod 400 =? 0)).

Definition days_in_month (y m : Z) : Z :=
  if m =? 2 then (if is_leap y then 29 else 28)
  else if (m =? 4) || (m =? 6) || (m =? 9) || (m =? 11) then 30
  else 31.

(** The check made by the [datetime.date(year, month, day)] constructor. *)
Definition date_ok (y m d : Z) : bool :=
  (1 <=? y) && (y <=? 9999) && (1 <=? m) && (m <=? 12)
  && (1 <=? d) && (d <=? days_in_month y m).

(** The constructor first converts each argument to a C [int] and
    raises [OverflowError] for one that does not fit; a triple that fits
    and fails the check is a [ValueError]. *)
Definition c_int (v : Z) : option exn :=
  if v >? 2147483647
  then Some (Exn OverflowError "signed integer is greater than maximum")
  else if v <? -2147483648
  then Some (Exn OverflowError "signed integer is less than minimum")
  else None.

Definition date_error (y m : Z) : string :=
  if (y <? 1) || (9999 <? y) then "year is out of range"
  else if (m <? 1) || (12 <? m) then "month must be in 1..12"
  else "day is out of range for month".

Definition datetime_date (y m d : Z) : result date :=
  match c_int y, c_int m, c_int d with
  | Some e, _, _ | None, Some e, _ | None, None, Some e => Raise e
  | None, None, None =>
      if date_ok y m d then Ok (Date y m d)
      else Raise (Exn ValueError (date_error y m))
  end.

(** A calendar date is a [date] the constructor accepts. *)
Definition valid_date (d : date) : Prop :=
  date_ok (year d) (month d) (day d) = true.

(** ** Shot numbers *)

Definition min_shot_for_date (d : date) : Z :=
  let y := year d in
  let m := month d in
  let d := day d in
  (y mod 1000 + 100) * 10000000 + m * 100000 + d * 1000 + 1.

Definition max_shot_for_date (d : date) : Z :=
  min_shot_for_date d + 998.

Definition shot_to_date (shot : Z) : result date :=
  let day := (shot / 1000) mod 100 in
  let month := (shot / 100000) mod 100 in
  let year := shot / 10000000 + 1900 in
  datetime_date year month day.

(** [shot_valid]: the range guard, then [shot_to_date] under
    [try ... except Exception]. *)
Definition shot_valid (shot : Z) : result bool :=
  if (shot >? 9991212999) || (shot <? 1000101001) || (shot mod 1000 =? 0)
  then Ok false
  else
    match shot_to_date shot with
    | Ok _ => Ok true
    | Raise e => if derives_Exception e then Ok false else Raise e
    end.

(** ** Python values

    What the remote endpoint returns after [.data()] and what is pickled
    into the cache: numpy scalars, numpy strings and arrays, and the plain
    tuples and byte strings the two entry points build from them.  The
    items of an [NpArray] are what iterating over its first axis yields. *)
Inductive pyval :=
  | NpScalar (n : Z)
  | NpString (s : string)
  | NpArray (items : list pyval)
  | PyStr (s : string)
  | PyTuple (items : list pyval).

(** [isinstance(v, np.ndarray)] *)
Definition is_ndarray (v : pyval) : bool :=
  match v with NpArray _ => true | _ => false end.

(** The tuple assignment [t, y = v]. *)
Definition unpack2 (v : pyval) : result (pyval * pyval) :=
  match v with
  | NpArray [a; b] | PyTuple [a; b] => Ok (a, b)
  | NpArray _ | PyTuple _ =>
      Raise (Exn ValueError "wrong number of values to unpack")
  | NpString (String a (String b EmptyString))
  | PyStr (String a (String b EmptyString)) =>
      Ok (PyStr (String a EmptyString), PyStr (String b EmptyString))
  | NpString _ | PyStr _ =>
      Raise (Exn ValueError "wrong number of values to unpack")
  | NpScalar _ => Raise (Exn TypeError "object is not iterable")
  end.

(** [int(v)] *)
Definition py_int (v : pyval) : result Z :=
  match v with
  | NpScalar n => Ok n
  | _ => Raise (Exn TypeError "int() argument must be a string or a number")
  end.

(** ** The world: module globals, connection objects, clock, disk, trace *)

(** A connection object is identified by its allocation index. *)
Definition conn := nat.

(** What a cache file holds: a complete pickle of a value, or anything
    else (an empty, truncated or foreign file). *)
Inductive content :=
  | Pickled (v : pyval)
  | Garbage.

Inductive event :=
  | ELookup (svr : string)                       (* _get_svr_cached(svr) *)
  | EConnect (svr : string)                      (* mds.Connection(svr) *)
  | ECloseAllTrees (c : conn)                    (* conn.closeAllTrees() *)
  | EOpenTree (c : conn) (tree : string) (shot : Z)  (* conn.openTree(..) *)
  | EGet (c : conn) (expr : string)              (* conn.get(expr) *)
  | EExists (dir_ : string)                      (* os.path.exists *)
  | EMakedirs (dir_ : string)                    (* os.makedirs *)
  | EOpenRead (path : string)                    (* open(path, 'rb') *)
  | EOpenWrite (path : string)                   (* open(path, 'wb') *)
  | ELoad (path : string)                        (* cPickle.load *)
  | EDump (path : string).                       (* cPickle.dump *)

Definition is_network (e : event) : bool :=
  match e with
  | EConnect _ | ECloseAllTrees _ | EOpenTree _ _ _ | EGet _ _ => true
  | _ => false
  end.

Definition is_session (e : event) : bool :=
  match e with ELookup _ => true | _ => is_network e end.

Definition is_disk (e : event) : bool :=
  match e with
  | EExists _ | EMakedirs _ | EOpenRead _ | EOpenWrite _ | ELoad _
  | EDump _ => true
  | _ => false
  end.

(** The trace lists the events newest first.  Access to the disk is
    all or nothing per path: a path in [denied] can be neither read nor
    written nor created, any other path can be read and written.

    Files and directories are keyed by the path string the module
    builds.  The file system may resolve two different strings to one
    file (a doubled or trailing separator, a [.] or [..] component, a
    symbolic link); the model keeps them apart, so what is proved of a
    path is proved of the string. *)
Record world := World {
  _SVR_CONNS : gmap string conn;
  _SVR_SHOTS : gmap string Z;
  _SVR_TREES : gmap string string;
  _AURORA : option conn;         (* [None]: the global is not yet bound *)
  conns : list string;           (* connection objects: index -> address *)
  clock : date;                  (* datetime.date.today() *)
  files : gmap string content;   (* regular files by path *)
  dirs : gset string;            (* existing directories *)
  denied : gset string;          (* paths the process may not access *)
  trace : list event
}.

(** The collaborators outside the module.  The remote endpoint and the
    serializer's write may answer differently as the history grows, so
    they read the trace. *)
Record env := Env {
  home : string;                                  (* the home directory, $HOME *)
  md5_hexdigest : string -> string;               (* hashlib.md5(s).hexdigest() *)
  format_fields : string -> string -> result string;
      (* s.format(arg) for the field syntax not scanned by format_simple *)
  numpy_tostring : pyval -> string;               (* raw buffer of a numpy value *)
  mds_Connection : list event -> string -> option exn;
  mds_closeAllTrees : list event -> conn -> option exn;
  mds_openTree : list event -> conn -> string -> Z -> option exn;
  mds_get : list event -> conn -> string -> result pyval;
  dump_error : list event -> string -> option exn
}.

Definition log (e : event) (w : world) : world :=
  World (_SVR_CONNS w) (_SVR_SHOTS w) (_SVR_TREES w) (_AURORA w) (conns w)
        (clock w) (files w) (dirs w) (denied w) (e :: trace w).

Definition set_files (f : gmap string content) (w : world) : world :=
  World (_SVR_CONNS w) (_SVR_SHOTS w) (_SVR_TREES w) (_AURORA w) (conns w)
        (clock w) f (dirs w) (denied w) (trace w).

Definition set_dirs (d : gset string) (w : world) : world :=
  World (_SVR_CONNS w) (_SVR_SHOTS w) (_SVR_TREES w) (_AURORA w) (conns w)
        (clock w) (files w) d (denied w) (trace w).

Definition set_conns (l : list string) (w : world) : world :=
  World (_SVR_CONNS w) (_SVR_SHOTS w) (_SVR_TREES w) (_AURORA w) l
        (clock w) (files w) (dirs w) (denied w) (trace w).

Definition set_AURORA (a : option conn) (w : world) : world :=
  World (_SVR_CONNS w) (_SVR_SHOTS w) (_SVR_TREES w) a (conns w)
        (clock w) (files w) (dirs w) (denied w) (trace w).

(** ** The state-and-exception monad

    A raised exception keeps the state changes made before it. *)
Definition M (A : Type) : Type := world -> world * result A.

Definition ret {A} (a : A) : M A := fun w => (w, Ok a).

Definition raise {A} (e : exn) : M A := fun w => (w, Raise e).

Definition lift {A} (r : result A) : M A := fun w => (w, r).

Definition bind {A B} (m : M A) (k : A -> M B) : M B :=
  fun w =>
    match m w with
    | (w', Ok a) => k a w'
    | (w', Raise e) => (w', Raise e)
    end.

(** [try: body / except: handler] with a bare [except:], which catches
    every exception.  It also renders [try: return body / except: pass]
    followed by the rest of the function, taking the rest as [handler]. *)
Definition try_except {A} (body handler : M A) : M A :=
  fun w =>
    match body w with
    | (w', Ok a) => (w', Ok a)
    | (w', Raise _) => handler w'
    end.

Notation "x <- m ;; k" := (bind m (fun x => k))
  (at level 100, m at next level, right associativity).
Notation "m ;;; k" := (bind m (fun _ => k))
  (at level 100, right associativity).

(** ** Path strings *)

(** [s.rstrip('/')] *)
Fixpoint rstrip_slash (s : string) : string :=
  match s with
  | EmptyString => EmptyString
  | String a r =>
      match rstrip_slash r with
      | EmptyString =>
          if bool_decide (a = "/"%char) then EmptyString
          else String a EmptyString
      | r' => String a r'
      end
  end.

(** The prefixes of [s] that end just before a separator, each without
    trailing separators, shortest first; [pre] is what has been read. *)
Fixpoint prefixes_at_slash (pre s : string) : list string :=
  match s with
  | EmptyString => []
  | String a r =>
      (if bool_decide (a = "/"%char) then [rstrip_slash pre] else [])
      ++ prefixes_at_slash (pre +:+ String a EmptyString) r
  end.

(** The directories above [name], outermost first, as [os.makedirs]
    finds them by repeated [os.path.split]; the root is left out. *)
Definition ancestors (name : string) : list string :=
  List.filter (fun p => negb (bool_decide (p = EmptyString)))
              (prefixes_at_slash EmptyString (rstrip_slash name)).

Section Mdsplus.

Variable E : env.

(** ** Primitive operations of the collaborators *)

(** [mds.Connection(svr)]: a new connection object on success. *)
Definition Connection (svr : string) : M conn :=
  fun w =>
    let w1 := log (EConnect svr) w in
    match mds_Connection E (trace w) svr with
    | Some e => (w1, Raise e)
    | None => (set_conns (conns w ++ [svr]) w1, Ok (length (conns w)))
    end.

Definition closeAllTrees (c : conn) : M unit :=
  fun w =>
    let w1 := log (ECloseAllTrees c) w in
    match mds_closeAllTrees E (trace w) c with
    | Some e => (w1, Raise e)
    | None => (w1, Ok tt)
    end.

Definition openTree (c : conn) (tree : string) (shot : Z) : M unit :=
  fun w =>
    let w1 := log (EOpenTree c tree shot) w in
    match mds_openTree E (trace w) c tree shot with
    | Some e => (w1, Raise e)
    | None => (w1, Ok tt)
    end.

(** [conn.get(expr).data()] *)
Definition conn_get (c : conn) (expr : string) : M pyval :=
  fun w => (log (EGet c expr) w, mds_get E (trace w) c expr).

(** [v.tostring()]: numpy values have it, plain tuples and strings do
    not. *)
Definition tostring (v : pyval) : result string :=
  match v with
  | NpString s => Ok s
  | NpScalar _ | NpArray _ => Ok (numpy_tostring E v)
  | PyStr _ | PyTuple _ =>
      Raise (Exn AttributeError "object has no attribute 'tostring'")
  end.

(** [s.format(arg)] with one positional argument that is a string.
    Literal text, the escapes for an opening and a closing brace (each
    written twice) and replacement fields made of one decimal digit are
    scanned here, left to right as the interpreter does: field 0 is the
    argument, any other index is out of range.  All other field syntax
    (auto-numbering, names, attributes, conversions, format
    specifications, unbalanced braces) is left to the interpreter. *)
Inductive fmt_state :=
  | FText                 (* in literal text *)
  | FOpen                 (* after an opening brace *)
  | FField (d : nat)      (* after an opening brace and the digit d *)
  | FClose.               (* after a closing brace in literal text *)

Definition digit_of (a : ascii) : option nat :=
  let n := nat_of_ascii a in
  if (48 <=? n)%nat && (n <=? 57)%nat then Some (n - 48)%nat else None.

Definition emit_str (pre : string) (x : option (result string))
  : option (result string) :=
  match x with
  | Some (Ok s) => Some (Ok (pre +:+ s))
  | other => other
  end.

Definition lbrace : ascii := "{"%char.
Definition rbrace : ascii := "}"%char.

Fixpoint format_simple (st : fmt_state) (s arg : string)
  : option (result string) :=
  match s with
  | EmptyString =>
      match st with FText => Some (Ok EmptyString) | _ => None end
  | String a r =>
      match st with
      | FText =>
          if bool_decide (a = lbrace) then format_simple FOpen r arg
          else if bool_decide (a = rbrace) then format_simple FClose r arg
          else emit_str (String a EmptyString) (format_simple FText r arg)
      | FOpen =>
          if bool_decide (a = lbrace)
          then emit_str (String lbrace EmptyString) (format_simple FText r arg)
          else match digit_of a with
               | Some d => format_simple (FField d) r arg
               | None => None
               end
      | FField d =>
          if bool_decide (a = rbrace)
          then match d with
               | O => emit_str arg (format_simple FText r arg)
               | S _ => Some (Raise (Exn IndexError "tuple index out of range"))
               end
          else None
      | FClose =>
          if bool_decide (a = rbrace)
          then emit_str (String rbrace EmptyString) (format_simple FText r arg)
          else None
      end
  end.

Definition str_format (s arg : string) : result string :=
  match format_simple FText s arg with
  | Some r => r
  | None => format_fields E s arg
  end.

(** [os.path.exists(dir_)] *)
Definition path_exists (dir_ : string) : M bool :=
  fun w => (log (EExists dir_) w, Ok (bool_decide (dir_ ∈ dirs w))).

(** [os.makedirs(dir_)], called on a directory that does not exist: it
    creates the missing directories above [dir_], outermost first, and
    then [dir_].  A refusal comes from the first directory it has to
    create (the ones it creates itself are its own), so a call that
    raises has created nothing; [dir_ ∈ denied] stands for that
    refusal. *)
Definition makedirs (dir_ : string) : M unit :=
  fun w =>
    let w1 := log (EMakedirs dir_) w in
    if bool_decide (dir_ ∈ denied w)
    then (w1, Raise (Exn OSError "Permission denied"))
    else (set_dirs (list_to_set (ancestors dir_) ∪ {[dir_]} ∪ dirs w) w1,
          Ok tt).

(** [open(path, 'rb')]: gives the file's content.  The failures modelled
    here and in [cPickle_load] are those the state of the disk decides:
    a path that may not be accessed, a missing file, a file that is not
    a complete pickle.  A read that fails for another reason (an
    interrupt, exhausted memory, a device error) is outside the
    model. *)
Definition open_rb (path : string) : M content :=
  fun w =>
    let w1 := log (EOpenRead path) w in
    if bool_decide (path ∈ denied w)
    then (w1, Raise (Exn IOError "Permission denied"))
    else
      match files w !! path with
      | None => (w1, Raise (Exn IOError "No such file or directory"))
      | Some c => (w1, Ok c)
      end.

(** [open(path, 'wb')]: creates or truncates the file. *)
Definition open_wb (path : string) : M unit :=
  fun w =>
    let w1 := log (EOpenWrite path) w in
    if bool_decide (path ∈ denied w)
    then (w1, Raise (Exn IOError "Permission denied"))
    else (set_files (<[path := Garbage]> (files w)) w1, Ok tt).

(** [cPickle.load(f)] *)
Definition cPickle_load (path : string) (c : content) : M pyval :=
  fun w =>
    let w1 := log (ELoad path) w in
    match c with
    | Pickled v => (w1, Ok v)
    | Garbage => (w1, Raise (Exn UnpicklingError "invalid load key"))
    end.

(** [cPickle.dump(data, f, protocol=-1)]: a failed write leaves the file
    as [open] or the partial write left it. *)
Definition cPickle_dump (data : pyval) (path : string) : M unit :=
  fun w =>
    let w1 := log (EDump path) w in
    match dump_error E (trace w) path with
    | Some e => (w1, Raise e)
    | None => (set_files (<[path := Pickled data]> (files w)) w1, Ok tt)
    end.

(** [assert(b)] *)
Definition py_assert (b : bool) : M unit :=
  if b then ret tt else raise (Exn AssertionError EmptyString).

(** ** The session table *)

Definition _get_svr_cached (svr : string)
  : M (option conn * option string * option Z) :=
  fun w =>
    (log (ELookup svr) w,
     match _SVR_CONNS w !! svr, _SVR_TREES w !! svr, _SVR_SHOTS w !! svr with
     | Some c, Some t, Some s => Ok (Some c, Some t, Some s)
     | _, _, _ => Ok (None, None, None)
     end).

Definition _update_svr_cache (svr : string) (c : conn) (tree : string)
    (shot : Z) : M unit :=
  fun w =>
    (World (<[svr := c]> (_SVR_CONNS w)) (<[svr := shot]> (_SVR_SHOTS w))
           (<[svr := tree]> (_SVR_TREES w)) (_AURORA w) (conns w) (clock w)
           (files w) (dirs w) (denied w) (trace w),
     Ok tt).

Definition aurora : string := "aurora.physics.wisc.edu".
Definition dave : string := "dave.physics.wisc.edu".

Definition server_for (today : date) (shot : Z) : string :=
  let first := min_shot_for_date today in
  if shot >=? first then aurora else dave.

Definition get_server_for_shot (shot : Z) : M string :=
  fun w => (w, Ok (server_for (clock w) shot)).

Definition get_connection (shot : Z) (tree : string) : M conn :=
  svr <- get_server_for_shot shot ;;
  cached <- _get_svr_cached svr ;;
  let '(conn_, tree_, shot_) := cached in
  c <- match conn_ with
       | None => Connection svr
       | Some c => ret c
       end ;;
  (if bool_decide (Some tree ≠ tree_) || bool_decide (Some shot ≠ shot_)
   then
     try_except (closeAllTrees c) (ret tt) ;;;
     openTree c tree shot
   else ret tt) ;;;
  _update_svr_cache svr c tree shot ;;;
  ret c.

(** ** The on-disk result cache *)

(** [os.path.expanduser]: a leading [~] followed by [/] (or by nothing)
    is replaced by the home directory without its trailing separators,
    and an empty result by the root.  A path that does not start with
    [~] is returned as it is; so is, here, one that names another user
    ([~name]), which the module never builds. *)
Definition expanduser (p : string) : string :=
  match p with
  | String "~"%char rest =>
      if String.prefix "/" rest || bool_decide (rest = EmptyString)
      then
        let r := rstrip_slash (home E) +:+ rest in
        if bool_decide (r = EmptyString) then "/" else r
      else p
  | _ => p
  end.

Fixpoint ends_with (a : ascii) (s : string) : bool :=
  match s with
  | EmptyString => false
  | String c EmptyString => bool_decide (c = a)
  | String _ s' => ends_with a s'
  end.

(** [os.path.join(a, b)] *)
Definition path_join (a b : string) : string :=
  if String.prefix "/" b then b
  else if bool_decide (a = EmptyString) || ends_with "/"%char a then a +:+ b
  else a +:+ "/" +:+ b.

Definition _cache_path (tree : string) (shot : Z) (expr : string)
  : string * string :=
  let dir_ := "~/.mdsplus_cache/" +:+ tree +:+ "/" +:+ pretty shot +:+ "/" in
  let dir_ := expanduser dir_ in
  let fn := md5_hexdigest E expr in
  (dir_, fn).

Definition _save_to_cache (tree : string) (shot : Z) (expr : string)
    (data : pyval) : M unit :=
  let '(dir_, fn) := _cache_path tree shot expr in
  ex <- path_exists dir_ ;;
  (if negb ex then makedirs dir_ else ret tt) ;;;
  let path := path_join dir_ fn in
  open_wb path ;;;
  cPickle_dump data path.

Definition _load_from_cache (tree : string) (shot : Z) (expr : string)
  : M pyval :=
  let '(dir_, fn) := _cache_path tree shot expr in
  let path := path_join dir_ fn in
  f <- open_rb path ;;
  cPickle_load path f.

(** The file a [(tree, shot, expr)] key is cached in. *)
Definition cache_file (tree : string) (shot : Z) (expr : string) : string :=
  let '(dir_, fn) := _cache_path tree shot expr in path_join dir_ fn.

(** ** The two entry points *)

Definition signal_expr (signal : string) : string :=
  "[if_error(dim_of(" +:+ signal +:+ "), $roprand), if_error(" +:+ signal
  +:+ ", $roprand)]".

(** The part of [get_signal] after the cache lookup. *)
Definition fetch_signal (shot : Z) (expr : string) (tree : string)
    (use_cache : bool) : M pyval :=
  c <- get_connection shot tree ;;
  r <- conn_get c expr ;;
  ty <- lift (unpack2 r) ;;
  let '(t, y) := ty in
  py_assert (is_ndarray t) ;;;
  py_assert (is_ndarray y) ;;;
  (if use_cache then _save_to_cache tree shot expr (PyTuple [t; y])
   else ret tt) ;;;
  ret (PyTuple [t; y]).

Definition get_signal (shot : Z) (signal : string) (tree : string)
    (use_cache : bool) : M pyval :=
  let expr := signal_expr signal in
  if use_cache
  then try_except (_load_from_cache tree shot expr)
                  (fetch_signal shot expr tree use_cache)
  else fetch_signal shot expr tree use_cache.

Definition units_expr (signal : string) : string :=
  "units(" +:+ signal +:+ ")".

(** The part of [get_signal_units] after the cache lookup; the
    expression is passed through [format] a second time before it is
    sent. *)
Definition fetch_units (shot : Z) (signal expr : string) (tree : string)
    (use_cache : bool) : M pyval :=
  c <- get_connection shot tree ;;
  sent <- lift (str_format expr signal) ;;
  r <- conn_get c sent ;;
  units <- lift (tostring r) ;;
  (if use_cache then _save_to_cache tree shot expr (PyStr units)
   else ret tt) ;;;
  ret (PyStr units).

Definition get_signal_units (shot : Z) (signal : string) (tree : string)
    (use_cache : bool) : M pyval :=
  let expr := units_expr signal in
  if use_cache
  then try_except (_load_from_cache tree shot expr)
                  (fetch_units shot signal expr tree use_cache)
  else fetch_units shot signal expr tree use_cache.

(** ** [current_shot] and its own connection *)

Definition dquote : string := String (ascii_of_nat 34) EmptyString.

Definition current_shot_expr : string :=
  "current_shot(" +:+ dquote +:+ "mst" +:+ dquote +:+ ")".

(** [int(_AURORA.get(expr))]; an unbound [_AURORA] is a [NameError]. *)
Definition aurora_get : M Z :=
  fun w =>
    match _AURORA w with
    | None => (w, Raise (Exn NameError "global name '_AURORA' is not defined"))
    | Some c => (r <- conn_get c current_shot_expr ;; lift (py_int r)) w
    end.

Definition current_shot : M Z :=
  try_except aurora_get
    (c <- Connection aurora ;;
     (fun w => (set_AURORA (Some c) w, Ok tt)) ;;;
     aurora_get).

End Mdsplus.

(** ** Processes: sequences of calls into the module

    A client may catch what a call raises and go on, so a run keeps the
    world each call leaves and drops the result. *)
Inductive call :=
  | CallGetConnection (shot : Z) (tree : string)
  | CallGetSignal (shot : Z) (signal tree : string) (use_cache : bool)
  | CallGetSignalUnits (shot : Z) (signal tree : string) (use_cache : bool)
  | CallCurrentShot.

Definition exec (E : env) (c : call) (w : world) : world :=
  match c with
  | CallGetConnection shot tree => fst (get_connection E shot tree w)
  | CallGetSignal shot signal tree uc => fst (get_signal E shot signal tree uc w)
  | CallGetSignalUnits shot signal tree uc =>
      fst (get_signal_units E shot signal tree uc w)
  | CallCurrentShot => fst (current_shot E w)
  end.

Definition run (E : env) (cs : list call) (w : world) : world :=
  fold_left (fun w c => exec E c w) cs w.

Definition is_current_shot (c : call) : bool :=
  match c with CallCurrentShot => true | _ => false end.

(** The session the table holds for a server: what [_get_svr_cached]
    reports, an entry in all three dictionaries. *)
Definition session_at (w : world) (svr : string) : option conn :=
  match _SVR_CONNS w !! svr, _SVR_TREES w !! svr, _SVR_SHOTS w !! svr with
  | Some c, Some _, Some _ => Some c
  | _, _, _ => None
  end.

(** The (tree, shot) pair the table records as open on a server. *)
Definition open_pair (w : world) (svr : string) : option (string * Z) :=
  match _SVR_TREES w !! svr, _SVR_SHOTS w !! svr with
  | Some t, Some s => Some (t, s)
  | _, _ => None
  end.

(** A connection object is live while a module global refers to it. *)
Definition live (w : world) (c : conn) : Prop :=
  (exists svr, _SVR_CONNS w !! svr = Some c) \/ _AURORA w = Some c.

Definition one_session_per_server (w : world) : Prop :=
  forall c1 c2 addr,
    live w c1 -> live w c2 ->
    conns w !! c1 = Some addr -> conns w !! c2 = Some addr -> c1 = c2.

Definition is_connect_to (svr : string) (e : event) : bool :=
  match e with EConnect s => bool_decide (s = svr) | _ => false end.

Definition connects_to (svr : string) (tr : list event) : nat :=
  length (List.filter (is_connect_to svr) tr).

Definition is_open (e : event) : bool :=
  match e with EOpenTree _ _ _ => true | _ => false end.

Definition opens (tr : list event) : nat :=
  length (List.filter is_open tr).

(** The shot encoding of a date, as a property of that date. *)
Definition shot_encoding_holds (d : date) : Prop :=
  let s := min_shot_for_date d in
  (1000000000 <= s <= 9999999999) /\
  (100 <= year d - 1900 <= 999) /\
  s = (year d - 1900) * 10 ^ 7 + month d * 10 ^ 5 + day d * 10 ^ 3 + 1 /\
  shot_to_date s = Ok d /\
  max_shot_for_date d = s + 998 /\
  shot_to_date (max_shot_for_date d) = Ok d.

(** ** Concrete collaborators, for evaluating the model *)

Definition sample_data : pyval :=
  NpArray [NpArray [NpScalar 0; NpScalar 1]; NpArray [NpScalar 5; NpScalar 7]].

(** The endpoint's answers: a shot number to [current_shot], a pair of
    arrays to anything else. *)
Definition answer (expr : string) : result pyval :=
  if bool_decide (expr = current_shot_expr) then Ok (NpScalar 1140101007)
  else Ok sample_data.

(** A reachable endpoint and a writable disk.  The digest is taken to be
    the expression itself; no signal evaluated below reaches
    [format_fields]. *)
Definition env_ok : env :=
  Env "/home/mst" (fun s => s)
      (fun _ _ => Raise (Exn ValueError "unsupported replacement field"))
      (fun _ => "A")
      (fun _ _ => None) (fun _ _ => None) (fun _ _ _ _ => None)
      (fun _ _ expr => answer expr)
      (fun _ _ => None).

(** The same, on a disk that is full. *)
Definition env_disk_full : env :=
  Env "/home/mst" (fun s => s)
      (fun _ _ => Raise (Exn ValueError "unsupported replacement field"))
      (fun _ => "A")
      (fun _ _ => None) (fun _ _ => None) (fun _ _ _ _ => None)
      (fun _ _ expr => answer expr)
      (fun _ _ => Some (Exn IOError "No space left on device")).

(** The same endpoint, refusing to open any tree. *)
Definition env_no_tree : env :=
  Env "/home/mst" (fun s => s)
      (fun _ _ => Raise (Exn ValueError "unsupported replacement field"))
      (fun _ => "A")
      (fun _ _ => None) (fun _ _ => None)
      (fun _ _ _ _ => Some (Exn MdsException "TreeNOT_FOUND"))
      (fun _ _ expr => answer expr)
      (fun _ _ => None).

(** The same endpoint, opening the tree of shot 1140101001 only. *)
Definition env_one_tree : env :=
  Env "/home/mst" (fun s => s)
      (fun _ _ => Raise (Exn ValueError "unsupported replacement field"))
      (fun _ => "A")
      (fun _ _ => None) (fun _ _ => None)
      (fun _ _ _ shot =>
         if shot =? 1140101001 then None
         else Some (Exn MdsException "TreeNOT_FOUND"))
      (fun _ _ expr => answer expr)
      (fun _ _ => None).

(** The module just imported, on the given day, with an empty cache. *)
Definition fresh (today : date) : world :=
  World ∅ ∅ ∅ None [] today ∅ ∅ ∅ [].

(** The same day, with a cache file for [(tree, shot, expr)] that does
    not hold a complete pickle, in its directory. *)
Definition with_garbage (E : env) (tree : string) (shot : Z) (expr : string)
    (w : world) : world :=
  let d := fst (_cache_path E tree shot expr) in
  set_files (<[cache_file E tree shot expr := Garbage]> (files w))
            (set_dirs (list_to_set (ancestors d) ∪ {[d]} ∪ dirs w) w).

(** ** Frames

    A computation keeps a relation between the world it starts in and
    the world it leaves, whatever it returns or raises. *)
Definition keeps {A} (R : world -> world -> Prop) (m : M A) : Prop :=
  forall w w' r, m w = (w', r) -> R w w'.

Definition disk_same (w w' : world) : Prop :=
  files w' = files w /\ dirs w' = dirs w /\ denied w' = denied w.

Definition table_same (w w' : world) : Prop :=
  _SVR_CONNS w' = _SVR_CONNS w /\ _SVR_TREES w' = _SVR_TREES w /\
  _SVR_SHOTS w' = _SVR_SHOTS w.

(** The trace grows by events that all satisfy [Q]. *)
Definition grows (Q : event -> bool) (w w' : world) : Prop :=
  exists new, trace w' = new ++ trace w /\ Forall (fun e => Q e = true) new.

(** A frame is a reflexive and transitive relation on worlds: it is
    kept by sequencing. *)
Class Frame (R : world -> world -> Prop) := {
  frame_refl : forall w, R w w;
  frame_trans : forall a b c, R a b -> R b c -> R a c
}.

Definition not_disk (e : event) : bool := negb (is_disk e).

(** Nothing at all is changed. *)
Definition unchanged (w w' : world) : Prop := w' = w.

(** The disk is left as it is and no disk operation is traced. *)
Definition off_disk (w w' : world) : Prop :=
  disk_same w w' /\ grows not_disk w w'.

(** Once the table holds a session for [svr], it stays and no further
    connection to [svr] is made. *)
Definition reuses (svr : string) (c : conn) (w w' : world) : Prop :=
  session_at w svr = Some c ->
  session_at w' svr = Some c /\
  connects_to svr (trace w') = connects_to svr (trace w).

(** The weaker frame that [current_shot] keeps as well. *)
Definition retains (svr : string) (c : conn) (w w' : world) : Prop :=
  session_at w svr = Some c -> session_at w' svr = Some c.

Create HintDb frames.

(** ** Date numbers ([shot_to_date_num], [date_to_date_num]) *)

Definition rbind {A B} (r : result A) (k : A -> result B) : result B :=
  match r with
  | Ok a => k a
  | Raise e => Raise e
  end.

Definition digit_char (k : Z) : ascii := ascii_of_nat (48 + Z.to_nat k).

(** The last [w] decimal digits of [n], zero padded. *)
Fixpoint zero_padded (w : nat) (n : Z) : string :=
  match w with
  | O => EmptyString
  | S w' => zero_padded w' (n / 10) +:+ String (digit_char (n mod 10)) EmptyString
  end.

(** [date.strftime('%Y%m%d')]: Python 2 refuses years before 1900; the
    years 1900 to 9999 of a date object take four digits, month and day
    two digits each. *)
Definition strftime_Ymd (d : date) : result string :=
  if year d <? 1900
  then Raise (Exn ValueError "year is before 1900")
  else Ok (zero_padded 4 (year d) +:+ zero_padded 2 (month d)
           +:+ zero_padded 2 (day d)).

Definition digit_val (a : ascii) : option Z :=
  let n := nat_of_ascii a in
  if (48 <=? n)%nat && (n <=? 57)%nat then Some (Z.of_nat n - 48) else None.

Fixpoint int_of_digits (acc : Z) (s : string) : result Z :=
  match s with
  | EmptyString => Ok acc
  | String a r =>
      match digit_val a with
      | Some v => int_of_digits (10 * acc + v) r
      | None => Raise (Exn ValueError "invalid literal for int()")
      end
  end.

(** [int(s)] for a string of decimal digits, which is what [strftime]
    hands over; the empty string is no literal. *)
Definition int_of_decimal (s : string) : result Z :=
  match s with
  | EmptyString => Raise (Exn ValueError "invalid literal for int()")
  | _ => int_of_digits 0 s
  end.

Definition date_to_date_num (d : date) : result Z :=
  rbind (strftime_Ymd d) int_of_decimal.

Definition shot_to_date_num (shot : Z) : result Z :=
  rbind (shot_to_date shot) date_to_date_num.

(** Chronological order of dates. *)
Definition date_lt (a b : date) : Prop :=
  year a < year b \/
  (year a = year b /\
   (month a < month b \/ (month a = month b /\ day a < day b))).

(** The years whose shots have ten digits. *)
Definition shot_era (d : date) : Prop :=
  valid_date d /\ 2000 <= year d <= 2899.

(** ** Invariants and footprints of the session state *)

(** The session state proper: the three dictionaries, [_AURORA], the
    connection objects and the clock. *)
Definition sessions_same (w w' : world) : Prop :=
  table_same w w' /\ _AURORA w' = _AURORA w /\ conns w' = conns w /\
  clock w' = clock w.

(** The three dictionaries have the same keys, all of them aurora or
    dave; the connection recorded for a server was made to that server,
    and the one in [_AURORA] to aurora. *)
Definition wf_fields (C : gmap string conn) (T : gmap string string)
    (S : gmap string Z) (A : option conn) (l : list string) : Prop :=
  (forall svr, C !! svr = None <-> T !! svr = None) /\
  (forall svr, C !! svr = None <-> S !! svr = None) /\
  (forall svr c, C !! svr = Some c ->
     (svr = aurora \/ svr = dave) /\ l !! c = Some svr) /\
  (forall c, A = Some c -> l !! c = Some aurora).

Definition table_wf (w : world) : Prop :=
  wf_fields (_SVR_CONNS w) (_SVR_TREES w) (_SVR_SHOTS w) (_AURORA w) (conns w).

Definition wf_kept (w w' : world) : Prop := table_wf w -> table_wf w'.

(** The table entries of the servers other than [svr] are as before. *)
Definition others_same (svr : string) (w w' : world) : Prop :=
  forall s, s <> svr ->
    _SVR_CONNS w' !! s = _SVR_CONNS w !! s /\
    _SVR_TREES w' !! s = _SVR_TREES w !! s /\
    _SVR_SHOTS w' !! s = _SVR_SHOTS w !! s.

(** ** Cache entries *)

(** No read of [p] can succeed: the path is denied, or there is no
    file, or the file holds no complete pickle. *)
Definition unloadable (p : string) (w : world) : Prop :=
  p ∈ denied w \/ files w !! p = None \/ files w !! p = Some Garbage.

(** What is at the path [q] is left as it is, and so are the access
    rights. *)
Definition path_kept (q : string) (w w' : world) : Prop :=
  files w' !! q = files w !! q /\ denied w' = denied w.

(** The cache file a call may write: the one of its key, for the two
    entry points called with [use_cache=True]. *)
Definition written_path (E : env) (c : call) : option string :=
  match c with
  | CallGetSignal shot signal tree true =>
      Some (cache_file E tree shot (signal_expr signal))
  | CallGetSignalUnits shot signal tree true =>
      Some (cache_file E tree shot (units_expr signal))
  | _ => None
  end.

(** A tuple of two numpy arrays, as [get_signal] builds it. *)
Definition is_array_pair (v : pyval) : bool :=
  match v with
  | PyTuple [t; y] => is_ndarray t && is_ndarray y
  | _ => false
  end.

Definition is_brace (a : ascii) : bool :=
  bool_decide (a = lbrace) || bool_decide (a = rbrace).

Fixpoint no_brace (s : string) : bool :=
  match s with
  | EmptyString => true
  | String a r => negb (is_brace a) && no_brace r
  end.

Definition is_get (e : event) : bool :=
  match e with EGet _ _ => true | _ => false end.

(** The number of remote evaluations in a trace. *)
Definition evals (tr : list event) : nat := length (List.filter is_get tr).

Definition evals_same (w w' : world) : Prop :=
  evals (trace w') = evals (trace w).

(** The number of path separators in a string. *)
Fixpoint slashes (s : string) : nat :=
  match s with
  | EmptyString => O
  | String a r => (if bool_decide (a = "/"%char) then 1 else 0) + slashes r
  end.

(** * Shot numbers *)

Lemma date_ok_bounds y m d :
  date_ok y m d = true ->
  1 <= y <= 9999 /\ 1 <= m <= 12 /\ 1 <= d <= 31.
Proof.
  unfold date_ok, days_in_month. intros H.
  repeat (apply andb_prop in H; destruct H as [H ?]).
  assert (d <= 31).
  { destruct (m =? 2); [destruct (is_leap y) |
      destruct ((m =? 4) || (m =? 6) || (m =? 9) || (m =? 11))]; lia. }
  lia.
Qed.

Lemma datetime_date_ok y m d :
  date_ok y m d = true -> datetime_date y m d = Ok (Date y m d).
Proof.
  intros H. pose proof (date_ok_bounds _ _ _ H) as (Hy & Hm & Hd).
  unfold datetime_date, c_int. rewrite H.
  destruct (Z.gtb_spec y 2147483647); [lia |].
  destruct (Z.ltb_spec y (-2147483648)); [lia |].
  destruct (Z.gtb_spec m 2147483647); [lia |].
  destruct (Z.ltb_spec m (-2147483648)); [lia |].
  destruct (Z.gtb_spec d 2147483647); [lia |].
  destruct (Z.ltb_spec d (-2147483648)); [lia |].
  reflexivity.
Qed.

(** What the constructor raises is a [ValueError] or an
    [OverflowError], and it raises exactly for the triples that fail the
    check. *)
Lemma datetime_date_raises y m d e :
  datetime_date y m d = Raise e ->
  date_ok y m d = false /\
  (exn_cls e = ValueError \/ exn_cls e = OverflowError).
Proof.
  destruct (date_ok y m d) eqn:H.
  - rewrite (datetime_date_ok _ _ _ H). discriminate.
  - unfold datetime_date, c_int. rewrite H.
    repeat case_match; intros; simplify_eq; simpl; auto.
Qed.

Lemma datetime_date_inv y m d x :
  datetime_date y m d = Ok x -> date_ok y m d = true /\ x = Date y m d.
Proof.
  destruct (date_ok y m d) eqn:H.
  - rewrite (datetime_date_ok _ _ _ H). intros; simplify_eq. auto.
  - unfold datetime_date. rewrite H. repeat case_match; discriminate.
Qed.

Lemma shot_fields f m d q :
  0 <= f -> 0 <= m < 100 -> 0 <= d < 100 -> 0 <= q < 1000 ->
  let s := f * 10000000 + m * 100000 + d * 1000 + q in
  s / 10000000 = f /\ (s / 100000) mod 100 = m /\ (s / 1000) mod 100 = d
  /\ s mod 1000 = q.
Proof.
  intros Hf Hm Hd Hq s. subst s.
  assert (H1 : (f * 10000000 + m * 100000 + d * 1000 + q) / 1000
               = f * 10000 + m * 100 + d).
  { symmetry. apply (Z.div_unique _ _ _ q); lia. }
  assert (H2 : (f * 10000000 + m * 100000 + d * 1000 + q) / 100000
               = f * 100 + m).
  { symmetry. apply (Z.div_unique _ _ _ (d * 1000 + q)); lia. }
  assert (H3 : (f * 10000000 + m * 100000 + d * 1000 + q) / 10000000 = f).
  { symmetry. apply (Z.div_unique _ _ _ (m * 100000 + d * 1000 + q)); lia. }
  rewrite H1, H2, H3. repeat split.
  - symmetry. apply (Z.mod_unique _ _ f); lia.
  - symmetry. apply (Z.mod_unique _ _ (f * 100 + m)); lia.
  - symmetry. apply (Z.mod_unique _ _ (f * 10000 + m * 100 + d)); lia.
Qed.

Lemma shot_to_date_encoded y m d q :
  date_ok y m d = true -> 1900 <= y -> 0 <= q < 1000 ->
  shot_to_date ((y - 1900) * 10000000 + m * 100000 + d * 1000 + q)
  = Ok (Date y m d).
Proof.
  intros Hok Hy Hq. destruct (date_ok_bounds _ _ _ Hok) as (_ & Hm & Hd).
  destruct (shot_fields (y - 1900) m d q) as (E1 & E2 & E3 & _); try lia.
  unfold shot_to_date. cbv zeta in *.
  rewrite E1, E2, E3. replace (y - 1900 + 1900) with y by lia.
  now apply datetime_date_ok.
Qed.

(** C5 (as amended).  For every calendar date of the years 2000 to 2899,
    [min_shot_for_date] is a 10-digit integer whose digit fields are
    [year - 1900] (three digits), month, day and the sequence number 1,
    [shot_to_date] decodes it to the date it came from, and
    [max_shot_for_date] is 998 more and decodes to the same date. *)
Theorem shot_encoding_2000_2899 (d : date) :
  valid_date d -> 2000 <= year d <= 2899 -> shot_encoding_holds d.
Proof.
  destruct d as [y m dd]. unfold valid_date, shot_encoding_holds. simpl.
  intros Hok Hy. destruct (date_ok_bounds _ _ _ Hok) as (_ & Hm & Hd).
  assert (Hmod : y mod 1000 = y - 2000).
  { symmetry. apply (Z.mod_unique _ _ 2); lia. }
  unfold max_shot_for_date, min_shot_for_date. simpl. rewrite Hmod.
  replace (y - 2000 + 100) with (y - 1900) by lia.
  change (10 ^ 7) with 10000000. change (10 ^ 5) with 100000.
  change (10 ^ 3) with 1000.
  repeat split; try lia.
  - apply shot_to_date_encoded; [assumption | lia | lia].
  - replace ((y - 1900) * 10000000 + m * 100000 + dd * 1000 + 1 + 998)
      with ((y - 1900) * 10000000 + m * 100000 + dd * 1000 + 999) by lia.
    apply shot_to_date_encoded; [assumption | lia | lia].
Qed.

Lemma shot_encoding_2000_2899_witness :
  shot_encoding_holds (Date 2014 1 1).
Proof.
  apply shot_encoding_2000_2899; [reflexivity | simpl; lia].
Defined.

(** C5 (as stated) fails for a date before 2000: 1999-12-31 is a
    calendar date, its minimum shot 10991231001 has eleven digits and
    decodes to the year 2999. *)
Lemma shot_encoding_fails_1999 :
  valid_date (Date 1999 12 31) /\
  min_shot_for_date (Date 1999 12 31) = 10991231001 /\
  shot_to_date (min_shot_for_date (Date 1999 12 31)) = Ok (Date 2999 12 31) /\
  ~ shot_encoding_holds (Date 1999 12 31).
Proof.
  repeat split.
  intros (H & _). vm_compute in H. destruct H as [_ H]. apply H. reflexivity.
Qed.

(** C9.  [shot_valid(1140101000)] is false, its sequence number being
    zero; [shot_valid(1140101001)] is true: it lies in the accepted
    range, its sequence number is 1 and it decodes to 2014-01-01. *)
Theorem shot_valid_examples :
  shot_valid 1140101000 = Ok false /\
  1140101000 mod 1000 = 0 /\
  shot_valid 1140101001 = Ok true /\
  1000101001 <= 1140101001 <= 9991212999 /\
  1140101001 mod 1000 = 1 /\
  shot_to_date 1140101001 = Ok (Date 2014 1 1).
Proof. repeat split; vm_compute; congruence. Qed.

Lemma shot_to_date_raises_Exception shot e :
  shot_to_date shot = Raise e -> derives_Exception e = true.
Proof.
  unfold shot_to_date. intros H.
  apply datetime_date_raises in H as (_ & [H | H]);
    unfold derives_Exception; now rewrite H.
Qed.

(** C10.  [shot_valid] is total on the integers: every input yields a
    boolean and none raises; where the date decoding raises, the answer
    is false, as for a month field of 13 or 0 and a day field of 0. *)
Theorem shot_valid_total (shot : Z) :
  (exists b, shot_valid shot = Ok b) /\
  match shot_to_date shot with
  | Raise _ => shot_valid shot = Ok false
  | Ok _ => True
  end /\
  shot_valid 1141301001 = Ok false /\
  shot_valid 1140001001 = Ok false /\
  shot_valid 1140100001 = Ok false.
Proof.
  assert (H : forall e, shot_to_date shot = Raise e -> shot_valid shot = Ok false).
  { intros e He. unfold shot_valid. rewrite He.
    rewrite (shot_to_date_raises_Exception _ _ He).
    now destruct (_ || _). }
  split; [| split; [| repeat split]].
  - destruct (shot_to_date shot) as [d | e] eqn:Hd.
    + unfold shot_valid. rewrite Hd. destruct (_ || _); eauto.
    + eauto.
  - destruct (shot_to_date shot) as [d | e]; eauto.
Qed.

(** * The expressions sent to the endpoint *)

(** The two literal templates, run through the model of [format], give
    the expressions as [signal_expr] and [units_expr] write them. *)
Lemma signal_expr_format E signal :
  str_format E "[if_error(dim_of({0}), $roprand), if_error({0}, $roprand)]"
             signal
  = Ok (signal_expr signal).
Proof. reflexivity. Qed.

Lemma units_expr_format E signal :
  str_format E "units({0})" signal = Ok (units_expr signal).
Proof. reflexivity. Qed.

(** * The monad: inversion and frame rules *)

Lemma bind_inv {A B} (m : M A) (k : A -> M B) w w' r :
  bind m k w = (w', r) ->
  (exists w1 a, m w = (w1, Ok a) /\ k a w1 = (w', r)) \/
  (exists e, m w = (w', Raise e) /\ r = Raise e).
Proof.
  unfold bind. destruct (m w) as [w1 [a | e]]; intros H.
  - left. eauto.
  - right. inversion H; subst. eauto.
Qed.

Lemma try_except_inv {A} (body handler : M A) w w' r :
  try_except body handler w = (w', r) ->
  (exists a, body w = (w', Ok a) /\ r = Ok a) \/
  (exists w1 e, body w = (w1, Raise e) /\ handler w1 = (w', r)).
Proof.
  unfold try_except. destruct (body w) as [w1 [a | e]]; intros H.
  - left. inversion H; subst. eauto.
  - right. eauto.
Qed.

Section Keeps.

Context (R : world -> world -> Prop) `{!Frame R}.

Lemma keeps_ret {A} (a : A) : keeps R (ret a).
Proof. intros w w' r H. inversion H; subst. apply frame_refl. Qed.

Lemma keeps_raise {A} (e : exn) : keeps R (@raise A e).
Proof. intros w w' r H. inversion H; subst. apply frame_refl. Qed.

Lemma keeps_lift {A} (x : result A) : keeps R (lift x).
Proof. intros w w' r H. inversion H; subst. apply frame_refl. Qed.

Lemma keeps_bind {A B} (m : M A) (k : A -> M B) :
  keeps R m -> (forall a, keeps R (k a)) -> keeps R (bind m k).
Proof.
  intros Hm Hk w w' r H.
  destruct (bind_inv _ _ _ _ _ H) as [(w1 & a & H1 & H2) | (e & H1 & _)].
  - eapply frame_trans; [eapply Hm | eapply Hk]; eassumption.
  - eapply Hm; eassumption.
Qed.

Lemma keeps_try_except {A} (body handler : M A) :
  keeps R body -> keeps R handler -> keeps R (try_except body handler).
Proof.
  intros Hb Hh w w' r H.
  destruct (try_except_inv _ _ _ _ _ H) as [(a & H1 & _) | (w1 & e & H1 & H2)].
  - eapply Hb; eassumption.
  - eapply frame_trans; [eapply Hb | eapply Hh]; eassumption.
Qed.

Lemma keeps_py_assert b : keeps R (py_assert b).
Proof. destruct b; [apply keeps_ret | apply keeps_raise]. Qed.

End Keeps.

(** Splits a [keeps] goal along the structure of the computation and
    closes the leaves with the hints of [frames]. *)
Ltac frame :=
  repeat first
    [ solve [eauto with frames]
    | apply keeps_ret; [typeclasses eauto]
    | apply keeps_raise; [typeclasses eauto]
    | apply keeps_lift; [typeclasses eauto]
    | apply keeps_py_assert; [typeclasses eauto]
    | apply keeps_bind; [typeclasses eauto | | intros ?]
    | apply keeps_try_except; [typeclasses eauto | | ]
    | match goal with
      | |- keeps _ (let '(_, _) := ?x in _) => destruct x
      | |- keeps _ (if ?b then _ else _) => destruct b
      | |- keeps _ (match ?x with _ => _ end) => destruct x
      end ].

#[local] Instance unchanged_frame : Frame unchanged.
Proof. split; unfold unchanged; congruence. Qed.

#[local] Instance disk_same_frame : Frame disk_same.
Proof.
  split.
  - intros w. repeat split.
  - unfold disk_same. intros a b c (? & ? & ?) (? & ? & ?).
    repeat split; congruence.
Qed.

#[local] Instance table_same_frame : Frame table_same.
Proof.
  split.
  - intros w. repeat split.
  - unfold table_same. intros a b c (? & ? & ?) (? & ? & ?).
    repeat split; congruence.
Qed.

#[local] Instance grows_frame Q : Frame (grows Q).
Proof.
  split.
  - intros w. exists []. split; [reflexivity | constructor].
  - intros a b c (n1 & H1 & F1) (n2 & H2 & F2). exists (n2 ++ n1). split.
    + rewrite H2, H1. now rewrite app_assoc.
    + apply Forall_app. split; assumption.
Qed.

#[local] Instance off_disk_frame : Frame off_disk.
Proof.
  split.
  - intros w. split; apply frame_refl.
  - intros a b c [] []. split; eapply frame_trans; eassumption.
Qed.

#[local] Instance reuses_frame svr c : Frame (reuses svr c).
Proof.
  split.
  - intros w H. split; [exact H | reflexivity].
  - intros x y z Hxy Hyz H. destruct (Hxy H) as [H1 E1].
    destruct (Hyz H1) as [H2 E2]. split; [exact H2 | congruence].
Qed.

#[local] Instance retains_frame svr c : Frame (retains svr c).
Proof.
  split.
  - intros w H. exact H.
  - intros x y z Hxy Hyz H. apply Hyz, Hxy, H.
Qed.

Lemma grows_one Q e w w' :
  trace w' = e :: trace w -> Q e = true -> grows Q w w'.
Proof.
  intros H HQ. exists [e]. split; [exact H | repeat constructor; exact HQ].
Qed.

(** * The session table and [get_connection] *)

Section Session.

Variable E : env.

Ltac session_run H :=
  unfold get_connection, get_server_for_shot, _get_svr_cached,
    _update_svr_cache, Connection, closeAllTrees, openTree, conn_get,
    try_except, bind, ret in H;
  repeat case_match; simplify_eq.

(** What a call of [get_connection] that returns has recorded. *)
Lemma get_connection_records shot tree w w' c :
  get_connection E shot tree w = (w', Ok c) ->
  let svr := server_for (clock w) shot in
  _SVR_CONNS w' !! svr = Some c /\ _SVR_TREES w' !! svr = Some tree /\
  _SVR_SHOTS w' !! svr = Some shot /\ clock w' = clock w.
Proof.
  intros H. session_run H; simpl; rewrite !lookup_insert_eq; auto.
Qed.

(** The call on a server whose recorded pair is the requested one. *)
Lemma get_connection_same_pair shot tree w c :
  let svr := server_for (clock w) shot in
  _SVR_CONNS w !! svr = Some c -> _SVR_TREES w !! svr = Some tree ->
  _SVR_SHOTS w !! svr = Some shot ->
  get_connection E shot tree w = (log (ELookup svr) w, Ok c).
Proof.
  intros svr Hc Ht Hs.
  unfold get_connection, get_server_for_shot, _get_svr_cached,
    _update_svr_cache, bind, ret. fold svr. simpl. rewrite Hc, Ht, Hs.
  rewrite !bool_decide_eq_false_2 by (intros X; apply X; reflexivity).
  simpl. unfold log. simpl. rewrite !insert_id by assumption. reflexivity.
Qed.

(** One call makes at most one [openTree]. *)
Lemma get_connection_opens shot tree w w' r :
  get_connection E shot tree w = (w', r) ->
  (opens (trace w') <= opens (trace w) + 1)%nat.
Proof.
  intros H. session_run H; unfold opens; simpl; lia.
Qed.

(** The trace of a call: the table lookup, then network operations
    only; a call that raises has attempted one. *)
Lemma get_connection_trace shot tree w w' r :
  get_connection E shot tree w = (w', r) ->
  exists new,
    trace w' = new ++ ELookup (server_for (clock w) shot) :: trace w /\
    Forall (fun e => is_network e = true) new /\
    match r with Raise _ => new <> [] | Ok _ => True end.
Proof.
  intros H. session_run H; simpl;
    match goal with
    | |- exists new, ?a :: ?b :: ?c :: ELookup _ :: _ = _ /\ _ =>
        exists [a; b; c]
    | |- exists new, ?a :: ?b :: ELookup _ :: _ = _ /\ _ => exists [a; b]
    | |- exists new, ?a :: ELookup _ :: _ = _ /\ _ => exists [a]
    | |- exists new, ELookup _ :: _ = _ /\ _ => exists []
    end;
    (split; [reflexivity | split; [repeat constructor | easy]]).
Qed.

(** C3 (as amended).  When a call of [get_connection] has returned, the
    same call made again finds the recorded pair equal to the requested
    one: it only consults the table, performs neither [closeAllTrees]
    nor [openTree], and returns the same connection; the two calls
    together have opened a tree at most once. *)
Theorem get_connection_repeat shot tree w w1 c :
  get_connection E shot tree w = (w1, Ok c) ->
  get_connection E shot tree w1
    = (log (ELookup (server_for (clock w) shot)) w1, Ok c) /\
  (opens (trace (fst (get_connection E shot tree w1)))
     <= opens (trace w) + 1)%nat.
Proof.
  intros H.
  destruct (get_connection_records _ _ _ _ _ H) as (Hc & Ht & Hs & Hk).
  assert (H2 : get_connection E shot tree w1
               = (log (ELookup (server_for (clock w) shot)) w1, Ok c)).
  { rewrite <- Hk in *. now apply get_connection_same_pair. }
  split; [exact H2 |].
  rewrite H2. simpl. change (opens (ELookup _ :: trace w1)) with (opens (trace w1)).
  eapply get_connection_opens; eassumption.
Qed.

(** C4.  On a server whose table entry records an open pair other than
    the requested one, [get_connection] consults the table, calls
    [closeAllTrees] and then [openTree] for the requested pair on the
    recorded session, whatever [closeAllTrees] answered.  If [openTree]
    raises, the call raises the same exception and the table is left as
    it was; otherwise the call returns the session and the table
    records the requested pair. *)
Theorem get_connection_switch shot tree w c t0 s0 :
  let svr := server_for (clock w) shot in
  session_at w svr = Some c ->
  open_pair w svr = Some (t0, s0) ->
  (tree, shot) <> (t0, s0) ->
  exists w' r,
    get_connection E shot tree w = (w', r) /\
    trace w' = EOpenTree c tree shot :: ECloseAllTrees c :: ELookup svr
                 :: trace w /\
    match mds_openTree E (ECloseAllTrees c :: ELookup svr :: trace w)
                       c tree shot with
    | Some e => r = Raise e /\ table_same w w'
    | None => r = Ok c /\ session_at w' svr = Some c /\
              open_pair w' svr = Some (tree, shot)
    end.
Proof.
  intros svr Hs Hp Hne. unfold session_at, open_pair in *.
  destruct (_SVR_CONNS w !! svr) as [c' |] eqn:Hc; [| discriminate].
  destruct (_SVR_TREES w !! svr) as [t' |] eqn:Ht; [| discriminate].
  destruct (_SVR_SHOTS w !! svr) as [s' |] eqn:Hsh; [| discriminate].
  simplify_eq.
  unfold get_connection, get_server_for_shot, _get_svr_cached,
    _update_svr_cache, closeAllTrees, openTree, try_except, bind, ret.
  fold svr. simpl. rewrite Hc, Ht, Hsh.
  assert (Hd : bool_decide (Some tree ≠ Some t0)
               || bool_decide (Some shot ≠ Some s0) = true).
  { destruct (decide (tree = t0)) as [-> |].
    - rewrite (bool_decide_eq_true_2 (Some shot ≠ Some s0)); [apply orb_true_r |].
      intros X. apply Hne. congruence.
    - rewrite bool_decide_eq_true_2; [reflexivity | congruence]. }
  rewrite Hd.
  destruct (mds_closeAllTrees E _ c); simpl;
    destruct (mds_openTree E _ c tree shot); simpl;
    do 2 eexists; (split; [reflexivity |]); simpl;
    rewrite ?lookup_insert_eq; repeat split; reflexivity.
Qed.

Lemma session_at_inv w svr c :
  session_at w svr = Some c ->
  _SVR_CONNS w !! svr = Some c /\
  (exists t, _SVR_TREES w !! svr = Some t) /\
  (exists s, _SVR_SHOTS w !! svr = Some s).
Proof.
  unfold session_at. intros H.
  destruct (_SVR_CONNS w !! svr); [| discriminate].
  destruct (_SVR_TREES w !! svr); [| discriminate].
  destruct (_SVR_SHOTS w !! svr); [| discriminate].
  inversion H; subst. eauto.
Qed.

Lemma session_at_intro w svr c t s :
  _SVR_CONNS w !! svr = Some c -> _SVR_TREES w !! svr = Some t ->
  _SVR_SHOTS w !! svr = Some s -> session_at w svr = Some c.
Proof. unfold session_at. now intros -> -> ->. Qed.

(** Once the table holds a session for a server, [get_connection]
    keeps it and makes no further connection to that server. *)
Lemma get_connection_reuses svr0 c0 shot tree :
  keeps (reuses svr0 c0) (get_connection E shot tree).
Proof.
  intros w w' r H Hs.
  destruct (session_at_inv _ _ _ Hs) as (Hc & [t Ht] & [s Hsh]).
  destruct (decide (server_for (clock w) shot = svr0)) as [Heq | Hne].
  - subst svr0. session_run H; (split; [| reflexivity]);
      solve [ eapply session_at_intro; simpl; rewrite ?lookup_insert_eq;
              first [reflexivity | eassumption] ].
  - assert (Hb : bool_decide (server_for (clock w) shot = svr0) = false)
      by now apply bool_decide_eq_false_2.
    session_run H;
      (split;
       [ eapply session_at_intro; simpl;
         rewrite ?lookup_insert_ne by assumption; eassumption
       | unfold connects_to; simpl; rewrite ?Hb; reflexivity ]).
Qed.

End Session.

(** * What each operation leaves alone *)

Section Footprints.

Variable E : env.

Ltac prim_run H :=
  unfold Connection, closeAllTrees, openTree, conn_get, _get_svr_cached,
    _update_svr_cache, get_server_for_shot, path_exists, makedirs, open_rb,
    open_wb, cPickle_load, cPickle_dump in H;
  repeat case_match; simplify_eq.

(** The session operations stay off the disk. *)
Ltac off_disk_prim :=
  let H := fresh in
  intros ? ? ? H; prim_run H;
  (split;
   [ repeat split
   | first [ eapply grows_one; [reflexivity | reflexivity]
           | exists []; split; [reflexivity | constructor] ] ]).

Lemma Connection_off_disk svr : keeps off_disk (Connection E svr).
Proof. off_disk_prim. Qed.

Lemma closeAllTrees_off_disk c : keeps off_disk (closeAllTrees E c).
Proof. off_disk_prim. Qed.

Lemma openTree_off_disk c tree shot : keeps off_disk (openTree E c tree shot).
Proof. off_disk_prim. Qed.

Lemma conn_get_off_disk c expr : keeps off_disk (conn_get E c expr).
Proof. off_disk_prim. Qed.

Lemma _get_svr_cached_off_disk svr : keeps off_disk (_get_svr_cached svr).
Proof. off_disk_prim. Qed.

Lemma _update_svr_cache_off_disk svr c tree shot :
  keeps off_disk (_update_svr_cache svr c tree shot).
Proof. off_disk_prim. Qed.

Lemma get_server_for_shot_off_disk shot :
  keeps off_disk (get_server_for_shot shot).
Proof. off_disk_prim. Qed.

#[local] Hint Resolve Connection_off_disk closeAllTrees_off_disk
  openTree_off_disk conn_get_off_disk _get_svr_cached_off_disk
  _update_svr_cache_off_disk get_server_for_shot_off_disk : frames.

Lemma get_connection_off_disk shot tree :
  keeps off_disk (get_connection E shot tree).
Proof. unfold get_connection. frame. Qed.

#[local] Hint Resolve get_connection_off_disk : frames.

Lemma fetch_signal_off_disk shot expr tree :
  keeps off_disk (fetch_signal E shot expr tree false).
Proof. unfold fetch_signal. frame. Qed.

Lemma fetch_units_off_disk shot signal expr tree :
  keeps off_disk (fetch_units E shot signal expr tree false).
Proof. unfold fetch_units. frame. Qed.

(** The evaluation and the disk operations leave the session table
    alone and make no connection. *)
Ltac reuses_prim :=
  let H := fresh in
  let Hs := fresh in
  intros ? ? ? H Hs; prim_run H; (split; [exact Hs | reflexivity]).

Lemma conn_get_reuses svr c0 c expr : keeps (reuses svr c0) (conn_get E c expr).
Proof. reuses_prim. Qed.

Lemma path_exists_reuses svr c0 d : keeps (reuses svr c0) (path_exists d).
Proof. reuses_prim. Qed.

Lemma makedirs_reuses svr c0 d : keeps (reuses svr c0) (makedirs d).
Proof. reuses_prim. Qed.

Lemma open_rb_reuses svr c0 p : keeps (reuses svr c0) (open_rb p).
Proof. reuses_prim. Qed.

Lemma open_wb_reuses svr c0 p : keeps (reuses svr c0) (open_wb p).
Proof. reuses_prim. Qed.

Lemma cPickle_load_reuses svr c0 p f : keeps (reuses svr c0) (cPickle_load p f).
Proof. reuses_prim. Qed.

Lemma cPickle_dump_reuses svr c0 v p :
  keeps (reuses svr c0) (cPickle_dump E v p).
Proof. reuses_prim. Qed.

#[local] Hint Resolve conn_get_reuses path_exists_reuses makedirs_reuses
  open_rb_reuses open_wb_reuses cPickle_load_reuses cPickle_dump_reuses
  get_connection_reuses : frames.

Lemma _load_from_cache_reuses svr c0 tree shot expr :
  keeps (reuses svr c0) (_load_from_cache E tree shot expr).
Proof. unfold _load_from_cache, _cache_path. frame. Qed.

Lemma _save_to_cache_reuses svr c0 tree shot expr data :
  keeps (reuses svr c0) (_save_to_cache E tree shot expr data).
Proof. unfold _save_to_cache, _cache_path. frame. Qed.

#[local] Hint Resolve _load_from_cache_reuses _save_to_cache_reuses : frames.

Lemma get_signal_reuses svr c0 shot signal tree uc :
  keeps (reuses svr c0) (get_signal E shot signal tree uc).
Proof. unfold get_signal, fetch_signal. frame. Qed.

Lemma get_signal_units_reuses svr c0 shot signal tree uc :
  keeps (reuses svr c0) (get_signal_units E shot signal tree uc).
Proof. unfold get_signal_units, fetch_units. frame. Qed.

(** [current_shot] leaves the table alone; the connection it may make
    is one to aurora. *)
Lemma current_shot_retains svr c0 : keeps (retains svr c0) (current_shot E).
Proof.
  intros w w' r H Hs.
  unfold current_shot, aurora_get, try_except, bind, Connection, conn_get,
    lift in H.
  repeat case_match; simplify_eq; exact Hs.
Qed.

Lemma current_shot_table_same : keeps table_same (current_shot E).
Proof.
  intros w w' r H.
  unfold current_shot, aurora_get, try_except, bind, Connection, conn_get,
    lift in H.
  repeat case_match; simplify_eq; repeat split.
Qed.

Lemma current_shot_reuses svr c0 :
  svr <> aurora -> keeps (reuses svr c0) (current_shot E).
Proof.
  intros Hne w w' r H Hs.
  assert (Hb : bool_decide (aurora = svr) = false)
    by (apply bool_decide_eq_false_2; congruence).
  unfold current_shot, aurora_get, try_except, bind, Connection, conn_get,
    lift in H.
  repeat case_match; simplify_eq;
    (split; [exact Hs | unfold connects_to; simpl; rewrite ?Hb; reflexivity]).
Qed.

Lemma get_connection_connects_once shot tree w w' r svr :
  get_connection E shot tree w = (w', r) ->
  (connects_to svr (trace w') <= connects_to svr (trace w) + 1)%nat.
Proof.
  intros H.
  unfold get_connection, get_server_for_shot, _get_svr_cached,
    _update_svr_cache, Connection, closeAllTrees, openTree, try_except,
    bind, ret in H.
  repeat case_match; simplify_eq; unfold connects_to; simpl;
    repeat case_bool_decide; simpl; lia.
Qed.

Lemma exec_reuses c svr c0 w :
  session_at w svr = Some c0 ->
  session_at (exec E c w) svr = Some c0 /\
  (is_current_shot c = false \/ svr <> aurora ->
   connects_to svr (trace (exec E c w)) = connects_to svr (trace w)).
Proof.
  intros Hs. destruct c as [shot tree | shot signal tree uc
                           | shot signal tree uc |]; simpl.
  - destruct (get_connection E shot tree w) as [w' r] eqn:H.
    destruct (get_connection_reuses E svr c0 _ _ _ _ _ H Hs). auto.
  - destruct (get_signal E shot signal tree uc w) as [w' r] eqn:H.
    destruct (get_signal_reuses svr c0 _ _ _ _ _ _ _ H Hs). auto.
  - destruct (get_signal_units E shot signal tree uc w) as [w' r] eqn:H.
    destruct (get_signal_units_reuses svr c0 _ _ _ _ _ _ _ H Hs). auto.
  - destruct (current_shot E w) as [w' r] eqn:H. split.
    + exact (current_shot_retains svr c0 _ _ _ H Hs).
    + intros [? | Hne]; [discriminate |].
      exact (proj2 (current_shot_reuses svr c0 Hne _ _ _ H Hs)).
Qed.

End Footprints.

(** * One session per server *)




(** What the amended C1 leaves open: when [openTree] raises on a newly
    made connection, the connection is not stored, and the next call
    connects again. *)
Lemma unopened_session_is_not_stored :
  let w := run env_no_tree [CallGetConnection 1140101001 "mst";
                            CallGetConnection 1140101001 "mst"]
               (fresh (Date 2014 1 1)) in
  session_at w aurora = None /\ connects_to aurora (trace w) = 2%nat.
Proof. split; vm_compute; reflexivity. Qed.

(** * The result cache *)

Section Cache.

Variable E : env.

Lemma _load_from_cache_unfold tree shot expr :
  _load_from_cache E tree shot expr
  = (f <- open_rb (cache_file E tree shot expr) ;;
     cPickle_load (cache_file E tree shot expr) f).
Proof. reflexivity. Qed.

Lemma _save_to_cache_unfold tree shot expr data :
  _save_to_cache E tree shot expr data
  = (let d := fst (_cache_path E tree shot expr) in
     ex <- path_exists d ;;
     (if negb ex then makedirs d else ret tt) ;;;
     open_wb (cache_file E tree shot expr) ;;;
     cPickle_dump E data (cache_file E tree shot expr)).
Proof. reflexivity. Qed.

(** A readable file holding a complete pickle is a hit. *)
Lemma load_hit tree shot expr w v :
  let p := cache_file E tree shot expr in
  files w !! p = Some (Pickled v) -> p ∉ denied w ->
  _load_from_cache E tree shot expr w
  = (log (ELoad p) (log (EOpenRead p) w), Ok v).
Proof.
  intros p Hf Hd. rewrite _load_from_cache_unfold. fold p.
  unfold bind, open_rb, cPickle_load.
  rewrite bool_decide_eq_false_2 by assumption. rewrite Hf. reflexivity.
Qed.

Lemma load_ok_inv tree shot expr w w' v :
  _load_from_cache E tree shot expr w = (w', Ok v) ->
  let p := cache_file E tree shot expr in
  files w !! p = Some (Pickled v) /\ (p ∉ denied w) /\
  w' = log (ELoad p) (log (EOpenRead p) w).
Proof.
  rewrite _load_from_cache_unfold. intros H p. fold p in H.
  unfold bind, open_rb, cPickle_load in H.
  case_bool_decide; [discriminate |].
  destruct (files w !! p) as [[v' |] |]; simplify_eq. auto.
Qed.

(** The three ways a read fails, and what a failed read leaves. *)
Lemma load_raises tree shot expr w :
  let p := cache_file E tree shot expr in
  p ∈ denied w \/ files w !! p = None \/ files w !! p = Some Garbage ->
  exists w' e, _load_from_cache E tree shot expr w = (w', Raise e).
Proof.
  intros p H. rewrite _load_from_cache_unfold. fold p.
  unfold bind, open_rb, cPickle_load.
  case_bool_decide; [eauto |].
  destruct H as [H | [H | H]]; [contradiction | |]; rewrite H; eauto.
Qed.

Lemma load_raise_inv tree shot expr w w' e :
  _load_from_cache E tree shot expr w = (w', Raise e) ->
  let p := cache_file E tree shot expr in
  (p ∈ denied w \/ files w !! p = None \/ files w !! p = Some Garbage) /\
  disk_same w w' /\ table_same w w' /\ grows is_disk w w'.
Proof.
  rewrite _load_from_cache_unfold. intros H p. fold p in H.
  unfold bind, open_rb, cPickle_load in H.
  case_bool_decide; [| destruct (files w !! p) as [[v' |] |] eqn:Hf];
    simplify_eq; (split; [tauto |]);
    (split; [repeat split |]); (split; [repeat split |]).
  - exists [EOpenRead p]. split; [reflexivity | repeat constructor].
  - exists [ELoad p; EOpenRead p]. split; [reflexivity | repeat constructor].
  - exists [EOpenRead p]. split; [reflexivity | repeat constructor].
Qed.

(** A write that returns has left a complete, readable pickle. *)
Lemma save_ok tree shot expr data w w' u :
  _save_to_cache E tree shot expr data w = (w', Ok u) ->
  let p := cache_file E tree shot expr in
  files w' !! p = Some (Pickled data) /\ p ∉ denied w'.
Proof.
  rewrite _save_to_cache_unfold. intros H p. fold p in H. cbv zeta in H.
  unfold bind, path_exists, makedirs, open_wb, cPickle_dump, ret in H.
  repeat case_match; simplify_eq; simpl in *;
    rewrite lookup_insert_eq; repeat case_bool_decide; simplify_eq; auto.
Qed.

Ltac bind_ok H :=
  let w1 := fresh "w" in
  let a := fresh "a" in
  let H1 := fresh "H" in
  let e := fresh "e" in
  apply bind_inv in H;
  destruct H as [(w1 & a & H1 & H) | (e & _ & ?)]; [| discriminate].

Lemma fetch_signal_saved shot expr tree w w' v :
  fetch_signal E shot expr tree true w = (w', Ok v) ->
  let p := cache_file E tree shot expr in
  files w' !! p = Some (Pickled v) /\ p ∉ denied w'.
Proof.
  unfold fetch_signal. intros H.
  bind_ok H. bind_ok H. bind_ok H. destruct a1 as [t y].
  bind_ok H. bind_ok H. bind_ok H.
  unfold ret in H. simplify_eq. eapply save_ok; eassumption.
Qed.

(** C2.  When [get_signal] with [use_cache=True] has returned a value,
    the same call made again returns that value and does nothing but
    open and load the cache file of the key: no table lookup, no
    connection, no remote evaluation.  The first call has left that
    value pickled at the cache path. *)
Theorem cache_round_trip shot signal tree w w1 v :
  get_signal E shot signal tree true w = (w1, Ok v) ->
  let p := cache_file E tree shot (signal_expr signal) in
  files w1 !! p = Some (Pickled v) /\
  get_signal E shot signal tree true w1
  = (log (ELoad p) (log (EOpenRead p) w1), Ok v) /\
  Forall (fun e => is_session e = false) [ELoad p; EOpenRead p].
Proof.
  intros H p. unfold get_signal in H.
  assert (Hfile : files w1 !! p = Some (Pickled v) /\ p ∉ denied w1).
  { apply try_except_inv in H.
    destruct H as [(a & Hl & Ha) | (w' & e & Hl & Hf)].
    - simplify_eq. destruct (load_ok_inv _ _ _ _ _ _ Hl) as (Hf & Hd & ->).
      split; assumption.
    - eapply fetch_signal_saved; eassumption. }
  destruct Hfile as [Hf Hd]. split; [exact Hf |]. split.
  - unfold get_signal, try_except.
    rewrite (load_hit tree shot (signal_expr signal) w1 v Hf Hd). reflexivity.
  - repeat constructor.
Qed.

(** The ways a write fails, and what a failed write has done: disk
    operations only, each once. *)
Lemma save_raise_inv tree shot expr data w w' e :
  _save_to_cache E tree shot expr data w = (w', Raise e) ->
  let d := fst (_cache_path E tree shot expr) in
  let p := cache_file E tree shot expr in
  exists new,
    trace w' = new ++ trace w /\
    (new = [EMakedirs d; EExists d] \/
     new = [EOpenWrite p; EExists d] \/
     new = [EOpenWrite p; EMakedirs d; EExists d] \/
     new = [EDump p; EOpenWrite p; EExists d] \/
     new = [EDump p; EOpenWrite p; EMakedirs d; EExists d]).
Proof.
  rewrite _save_to_cache_unfold. intros H d p. fold d p in H. cbv zeta in H.
  unfold bind, path_exists, makedirs, open_wb, cPickle_dump, ret in H.
  repeat case_match; simplify_eq; simpl;
    match goal with
    | |- exists new, ?a :: ?b :: ?c :: ?x :: trace w = _ /\ _ =>
        exists [a; b; c; x]
    | |- exists new, ?a :: ?b :: ?c :: trace w = _ /\ _ => exists [a; b; c]
    | |- exists new, ?a :: ?b :: trace w = _ /\ _ => exists [a; b]
    end; (split; [reflexivity | tauto]).
Qed.


End Cache.

(** * Calls that bypass the cache *)

Section NoCache.

Variable E : env.

Lemma signal_checks_unchanged r :
  keeps unchanged
    (ty <- lift (unpack2 r) ;;
     let '(t, y) := ty in
     py_assert (is_ndarray t) ;;;
     py_assert (is_ndarray y) ;;;
     ret tt ;;;
     ret (PyTuple [t; y])).
Proof. frame. Qed.

(** [get_signal] with [use_cache=False]: the disk is neither read nor
    written, the table is consulted, only network operations follow and
    there is at least one; a call that returns has ended with the
    remote evaluation of the expression on the session the table now
    holds. *)
Lemma get_signal_no_cache shot signal tree w w' r :
  get_signal E shot signal tree false w = (w', r) ->
  let svr := server_for (clock w) shot in
  off_disk w w' /\
  exists new,
    trace w' = new ++ ELookup svr :: trace w /\
    Forall (fun e => is_network e = true) new /\ new <> [] /\
    forall v, r = Ok v ->
      exists c, session_at w' svr = Some c /\
                head new = Some (EGet c (signal_expr signal)).
Proof.
  intros H svr. split.
  { eapply fetch_signal_off_disk; exact H. }
  unfold get_signal, fetch_signal in H.
  apply bind_inv in H. destruct H as [(w1 & c & Hc & H) | (e & Hc & ->)].
  - destruct (get_connection_trace _ _ _ _ _ _ Hc) as (new & Htr & Hnet & _).
    destruct (get_connection_records _ _ _ _ _ _ Hc) as (Rc & Rt & Rs & _).
    assert (Hw : w' = log (EGet c (signal_expr signal)) w1).
    { apply bind_inv in H.
      destruct H as [(w2 & rr & Hg & H) | (e & Hg & ->)];
        unfold conn_get in Hg; simplify_eq; [| reflexivity].
      exact (signal_checks_unchanged rr _ _ _ H). }
    subst w'. exists (EGet c (signal_expr signal) :: new). simpl.
    rewrite Htr. repeat split.
    + constructor; [reflexivity | exact Hnet].
    + discriminate.
    + intros v _. exists c. split; [| reflexivity].
      eapply session_at_intro; eassumption.
  - destruct (get_connection_trace _ _ _ _ _ _ Hc) as (new & Htr & Hnet & Hne).
    exists new. repeat split; try assumption. intros v Hv. discriminate Hv.
Qed.

(** [get_signal_units] with [use_cache=False] stays off the disk as
    well. *)
Lemma get_signal_units_no_cache shot signal tree w w' r :
  get_signal_units E shot signal tree false w = (w', r) -> off_disk w w'.
Proof. intros H. eapply fetch_units_off_disk; exact H. Qed.

End NoCache.

(** C7, at the input where the code departs from it.  With a session
    to aurora that has tree mst and shot 1140101001 open,
    [get_signal_units(1140101001, sig, 'mst', use_cache=False)] for the
    signal name made of an opening brace, the digit 1 and a closing
    brace consults the table and raises [IndexError] from the second
    [format] of the expression: nothing is sent to the endpoint.
    [get_signal] on the same arguments does evaluate its expression
    there. *)
Theorem units_formatted_twice :
  let w1 := fst (get_connection env_ok 1140101001 "mst"
                                (fresh (Date 2014 1 1))) in
  session_at w1 aurora = Some 0%nat /\
  open_pair w1 aurora = Some ("mst", 1140101001) /\
  units_expr "{1}" = "units({1})" /\
  get_signal_units env_ok 1140101001 "{1}" "mst" false w1
  = (log (ELookup aurora) w1,
     Raise (Exn IndexError "tuple index out of range")) /\
  is_network (ELookup aurora) = false /\
  trace (fst (get_signal env_ok 1140101001 "{1}" "mst" false w1))
  = EGet 0%nat (signal_expr "{1}") :: ELookup aurora :: trace w1.
Proof. repeat split; vm_compute; reflexivity. Qed.

(** * The theorems at work on a concrete process

    The module is imported on 2014-01-01 with an empty cache; shot
    1140101001 is the first shot of that day and is served by aurora. *)

Lemma get_connection_repeat_witness :
  let w0 := fresh (Date 2014 1 1) in
  let w1 := fst (get_connection env_ok 1140101001 "mst" w0) in
  get_connection env_ok 1140101001 "mst" w1 = (log (ELookup aurora) w1, Ok 0%nat).
Proof.
  intros w0 w1.
  destruct (get_connection_repeat env_ok 1140101001 "mst" w0 w1 0%nat) as [H _];
    [vm_compute; reflexivity |].
  exact H.
Defined.

(** C3 (as stated) fails when the first of the two calls raises.
    [get_connection] records the pair after [openTree] has returned, so
    a call whose [openTree] raises records nothing, and the same call
    made again closes and opens once more.  Here the table holds the
    session to aurora with shot 1140101001 open and the endpoint refuses
    the tree of shot 1140101002: two calls for that shot, two opens.
    From a module just imported, with an endpoint that opens no tree,
    the two calls also make two connections. *)
Lemma repeat_after_failed_open :
  let w1 := fst (get_connection env_one_tree 1140101001 "mst"
                                (fresh (Date 2014 1 1))) in
  let w2 := fst (get_connection env_one_tree 1140101002 "mst" w1) in
  let w3 := fst (get_connection env_one_tree 1140101002 "mst" w2) in
  let u := run env_no_tree [CallGetConnection 1140101001 "mst";
                            CallGetConnection 1140101001 "mst"]
               (fresh (Date 2014 1 1)) in
  session_at w1 aurora = Some 0%nat /\
  open_pair w2 aurora = Some ("mst", 1140101001) /\
  snd (get_connection env_one_tree 1140101002 "mst" w1)
  = Raise (Exn MdsException "TreeNOT_FOUND") /\
  snd (get_connection env_one_tree 1140101002 "mst" w2)
  = Raise (Exn MdsException "TreeNOT_FOUND") /\
  trace w3 = [EOpenTree 0%nat "mst" 1140101002; ECloseAllTrees 0%nat;
              ELookup aurora;
              EOpenTree 0%nat "mst" 1140101002; ECloseAllTrees 0%nat;
              ELookup aurora]
             ++ trace w1 /\
  opens (trace w3) = (opens (trace w1) + 2)%nat /\
  opens (trace u) = 2%nat /\ connects_to aurora (trace u) = 2%nat.
Proof. repeat split; vm_compute; reflexivity. Qed.

Lemma get_connection_switch_witness :
  let w0 := fresh (Date 2014 1 1) in
  let w1 := fst (get_connection env_ok 1140101001 "mst" w0) in
  exists w2,
    get_connection env_ok 1140101002 "mst" w1 = (w2, Ok 0%nat) /\
    trace w2 = EOpenTree 0%nat "mst" 1140101002 :: ECloseAllTrees 0%nat
                 :: ELookup aurora :: trace w1 /\
    open_pair w2 aurora = Some ("mst", 1140101002).
Proof.
  intros w0 w1.
  destruct (get_connection_switch env_ok 1140101002 "mst" w1 0%nat
              "mst" 1140101001) as (w2 & r & Hrun & Htr & Hres).
  - vm_compute; reflexivity.
  - vm_compute; reflexivity.
  - intros X. discriminate X.
  - change (mds_openTree env_ok _ 0%nat "mst" 1140101002) with (@None exn) in Hres.
    destruct Hres as (-> & _ & Hp). exists w2. auto.
Defined.

Lemma cache_round_trip_witness :
  let w0 := fresh (Date 2014 1 1) in
  let w1 := fst (get_signal env_ok 1140101001 "ip" "mst" true w0) in
  snd (get_signal env_ok 1140101001 "ip" "mst" true w1)
  = snd (get_signal env_ok 1140101001 "ip" "mst" true w0).
Proof.
  intros w0 w1.
  destruct (cache_round_trip env_ok 1140101001 "ip" "mst" w0 w1
              (PyTuple [NpArray [NpScalar 0; NpScalar 1];
                        NpArray [NpScalar 5; NpScalar 7]]))
    as (_ & H & _); [vm_compute; reflexivity |].
  rewrite H. vm_compute. reflexivity.
Defined.


(** * More on shot numbers and dates *)

Lemma era_shots_decode (d : date) (s : Z) :
  shot_era d ->
  min_shot_for_date d <= s <= max_shot_for_date d ->
  shot_to_date s = Ok d.
Proof.
  destruct d as [y m dd]. unfold shot_era, valid_date. simpl.
  intros [Hok Hy] Hs.
  destruct (date_ok_bounds _ _ _ Hok) as (_ & Hm & Hd).
  assert (Hmod : y mod 1000 = y - 2000).
  { symmetry. apply (Z.mod_unique _ _ 2); lia. }
  unfold max_shot_for_date, min_shot_for_date in Hs. simpl in Hs.
  rewrite Hmod in Hs.
  replace s with ((y - 1900) * 10000000 + m * 100000 + dd * 1000
                  + (s - ((y - 1900) * 10000000 + m * 100000 + dd * 1000)))
    by lia.
  apply shot_to_date_encoded; [assumption | lia | lia].
Qed.

Lemma min_shot_era y m d :
  2000 <= y <= 2899 ->
  min_shot_for_date (Date y m d)
  = (y - 1900) * 10000000 + m * 100000 + d * 1000 + 1.
Proof.
  intros Hy. unfold min_shot_for_date. simpl.
  replace (y mod 1000) with (y - 2000); [lia |].
  apply (Z.mod_unique _ _ 2); lia.
Qed.

Lemma era_shot_order (a b : date) :
  shot_era a -> shot_era b ->
  (date_lt a b <-> max_shot_for_date a < min_shot_for_date b) /\
  (date_lt a b <-> min_shot_for_date a < min_shot_for_date b).
Proof.
  destruct a as [ya ma da], b as [yb mb db].
  unfold shot_era, valid_date, date_lt, max_shot_for_date. simpl.
  intros [Ha Hya] [Hb Hyb].
  destruct (date_ok_bounds _ _ _ Ha) as (_ & Hma & Hda).
  destruct (date_ok_bounds _ _ _ Hb) as (_ & Hmb & Hdb).
  rewrite !min_shot_era by assumption.
  split; split; lia.
Qed.

(** X1.  For a date of the years 2000 to 2899, the shot numbers from
    the minimum to the maximum shot of the date are exactly the numbers
    that decode to the date and have a sequence number other than 0. *)
Theorem shots_of_a_date_decode (d : date) (s : Z) :
  shot_era d ->
  (min_shot_for_date d <= s <= max_shot_for_date d <->
   shot_to_date s = Ok d /\ s mod 1000 <> 0).
Proof.
  intros Hera. split.
  - intros Hs. split; [now apply era_shots_decode |].
    destruct d as [y m dd]. destruct Hera as [Hok Hy]. simpl in Hy.
    unfold max_shot_for_date in Hs. rewrite min_shot_era in Hs by exact Hy.
    Z.div_mod_to_equations; lia.
  - intros [Hd Hq]. destruct d as [y m dd]. destruct Hera as [Hok Hy].
    unfold valid_date in Hok. simpl in Hok, Hy.
    destruct (date_ok_bounds _ _ _ Hok) as (_ & Hm & Hdd).
    unfold max_shot_for_date. rewrite min_shot_era by exact Hy.
    unfold shot_to_date in Hd. cbv zeta in Hd.
    apply datetime_date_inv in Hd as [_ Hd].
    injection Hd as Ey Em Ed.
    Z.div_mod_to_equations; lia.
Qed.

Lemma shots_of_a_date_decode_witness :
  shot_to_date 1140101500 = Ok (Date 2014 1 1) /\ 1140101500 mod 1000 <> 0.
Proof.
  apply (shots_of_a_date_decode (Date 2014 1 1)).
  - split; [reflexivity | simpl; lia].
  - vm_compute. split; discriminate.
Defined.

(** X2.  For dates of the years 2000 to 2899 the shot numbers follow the
    calendar: one date is before another exactly when all its shots are
    below all shots of the other, so the shot ranges of two different
    dates never overlap, and two dates with the same minimum shot are
    the same date. *)
Theorem shot_order_is_date_order (a b : date) :
  shot_era a -> shot_era b ->
  (date_lt a b <-> max_shot_for_date a < min_shot_for_date b) /\
  (date_lt a b <-> min_shot_for_date a < min_shot_for_date b) /\
  (min_shot_for_date a = min_shot_for_date b -> a = b).
Proof.
  intros Ha Hb. destruct (era_shot_order a b Ha Hb) as [H1 H2].
  split; [exact H1 | split; [exact H2 |]].
  destruct a as [ya ma da], b as [yb mb db].
  destruct Ha as [Ha Hya], Hb as [Hb Hyb].
  unfold valid_date in *. simpl in *.
  destruct (date_ok_bounds _ _ _ Ha) as (_ & Hma & Hda).
  destruct (date_ok_bounds _ _ _ Hb) as (_ & Hmb & Hdb).
  rewrite !min_shot_era by assumption. intros Heq. f_equal; lia.
Qed.

Lemma shot_order_is_date_order_witness :
  max_shot_for_date (Date 2013 12 31) < min_shot_for_date (Date 2014 1 1).
Proof.
  apply (shot_order_is_date_order (Date 2013 12 31) (Date 2014 1 1)).
  - split; [reflexivity | simpl; lia].
  - split; [reflexivity | simpl; lia].
  - left. simpl. lia.
Defined.

(** X3.  [shot_valid] accepts exactly the shots of the calendar dates of
    the years 2000 to 2899 with a sequence number from 1 to 999, up to
    the bound 9991212999 written in the code. *)
Theorem shot_valid_iff (s : Z) :
  shot_valid s = Ok true <->
  exists d, shot_era d /\
            min_shot_for_date d <= s <= max_shot_for_date d /\
            s <= 9991212999.
Proof.
  split.
  - unfold shot_valid.
    destruct ((s >? 9991212999) || (s <? 1000101001) || (s mod 1000 =? 0))
      eqn:Hg; [discriminate |].
    apply orb_false_iff in Hg. destruct Hg as [Hg H3].
    apply orb_false_iff in Hg. destruct Hg as [H1 H2].
    destruct (shot_to_date s) as [d |] eqn:Hd;
      [| destruct (derives_Exception e); discriminate].
    intros _. exists d.
    unfold shot_to_date in Hd. cbv zeta in Hd.
    apply datetime_date_inv in Hd as [Hok ->].
    destruct (date_ok_bounds _ _ _ Hok) as (_ & Hm & Hdd).
    assert (Hy : 2000 <= s / 10000000 + 1900 <= 2899)
      by (Z.div_mod_to_equations; lia).
    split; [split; [exact Hok | exact Hy] |].
    unfold max_shot_for_date. rewrite min_shot_era by exact Hy.
    split; [| lia].
    Z.div_mod_to_equations; lia.
  - intros (d & Hera & Hs & Hb).
    pose proof (era_shots_decode d s Hera Hs) as Hd.
    destruct d as [y m dd]. destruct Hera as [Hok Hy].
    unfold valid_date in Hok. simpl in Hok, Hy.
    destruct (date_ok_bounds _ _ _ Hok) as (_ & Hm & Hdd).
    unfold max_shot_for_date in Hs. rewrite min_shot_era in Hs by exact Hy.
    unfold shot_valid. rewrite Hd.
    replace ((s >? 9991212999) || (s <? 1000101001) || (s mod 1000 =? 0))
      with false; [reflexivity |].
    symmetry. apply orb_false_iff. split; [apply orb_false_iff; split |].
    + lia.
    + lia.
    + apply Z.eqb_neq. Z.div_mod_to_equations; lia.
Qed.

Lemma shot_valid_iff_witness :
  shot_valid 1140229001 = Ok false /\
  (exists d, shot_era d /\
             min_shot_for_date d <= 1160229999 <= max_shot_for_date d).
Proof.
  split.
  - destruct (shot_valid 1140229001) as [[|] |] eqn:H;
      [| reflexivity | discriminate H].
    apply (proj1 (shot_valid_iff 1140229001)) in H.
    destruct H as (d & Hera & Hs & _).
    pose proof (era_shots_decode d _ Hera Hs) as Hd.
    discriminate Hd.
  - destruct (proj1 (shot_valid_iff 1160229999)) as (d & Hera & Hs & _);
      [reflexivity |].
    exists d. split; assumption.
Defined.

Lemma append_assoc_s (a b c : string) : (a +:+ b) +:+ c = a +:+ (b +:+ c).
Proof.
  induction a as [| x a IH]; [reflexivity |].
  change (String x ((a +:+ b) +:+ c) = String x (a +:+ (b +:+ c))).
  now rewrite IH.
Qed.

Lemma append_nil_r_s (a : string) : a +:+ EmptyString = a.
Proof.
  induction a as [| x a IH]; [reflexivity |].
  change (String x (a +:+ EmptyString) = String x a). now rewrite IH.
Qed.

Lemma digit_val_char (k : Z) :
  0 <= k <= 9 -> digit_val (digit_char k) = Some k.
Proof.
  intros Hk.
  assert (H : k = 0 \/ k = 1 \/ k = 2 \/ k = 3 \/ k = 4 \/ k = 5 \/ k = 6
              \/ k = 7 \/ k = 8 \/ k = 9) by lia.
  repeat (destruct H as [-> | H]; [reflexivity |]). subst k. reflexivity.
Qed.

Lemma int_of_digits_padded (w : nat) :
  forall n acc rest,
    0 <= n ->
    int_of_digits acc (zero_padded w n +:+ rest)
    = int_of_digits (acc * 10 ^ Z.of_nat w + n mod 10 ^ Z.of_nat w) rest.
Proof.
  induction w as [| w IH]; intros n acc rest Hn.
  - change (zero_padded 0 n +:+ rest) with rest.
    change (10 ^ Z.of_nat 0) with 1. rewrite Z.mod_1_r. f_equal. lia.
  - change (zero_padded (S w) n)
      with (zero_padded w (n / 10) +:+ String (digit_char (n mod 10)) EmptyString).
    rewrite append_assoc_s.
    change (String (digit_char (n mod 10)) EmptyString +:+ rest)
      with (String (digit_char (n mod 10)) rest).
    rewrite IH by (apply Z.div_pos; lia).
    change (int_of_digits ?a (String ?c ?r))
      with (match digit_val c with
            | Some v => int_of_digits (10 * a + v) r
            | None => Raise (Exn ValueError "invalid literal for int()")
            end).
    rewrite digit_val_char by (pose proof (Z.mod_pos_bound n 10); lia).
    f_equal. rewrite Nat2Z.inj_succ, Z.pow_succ_r by lia.
    rewrite (Z.rem_mul_r n 10 (10 ^ Z.of_nat w)) by lia. lia.
Qed.

Lemma padded_nonempty w n rest :
  exists c r, zero_padded (S w) n +:+ rest = String c r.
Proof.
  change (zero_padded (S w) n)
    with (zero_padded w (n / 10) +:+ String (digit_char (n mod 10)) EmptyString).
  rewrite append_assoc_s.
  destruct (zero_padded w (n / 10)) as [| c r]; eexists; eexists; reflexivity.
Qed.

Lemma date_to_date_num_ok y m dd :
  date_ok y m dd = true -> 1900 <= y ->
  date_to_date_num (Date y m dd) = Ok (y * 10000 + m * 100 + dd).
Proof.
  intros Hok Hy. destruct (date_ok_bounds _ _ _ Hok) as (Hy' & Hm & Hdd).
  unfold date_to_date_num, strftime_Ymd. cbn [year month day].
  replace (y <? 1900) with false by (symmetry; apply Z.ltb_ge; lia).
  unfold rbind, int_of_decimal.
  destruct (padded_nonempty 3 y (zero_padded 2 m +:+ zero_padded 2 dd))
    as (c & r & Hne).
  rewrite Hne, <- Hne.
  rewrite int_of_digits_padded by lia.
  rewrite int_of_digits_padded by lia.
  rewrite <- (append_nil_r_s (zero_padded 2 dd)) at 1.
  rewrite int_of_digits_padded by lia.
  simpl int_of_digits. f_equal.
  change (10 ^ Z.of_nat 4) with 10000. change (10 ^ Z.of_nat 2) with 100.
  rewrite (Z.mod_small y), (Z.mod_small m), (Z.mod_small dd) by lia. lia.
Qed.

(** X4.  For a calendar date from the year 1900 on, [date_to_date_num]
    is [year * 10000 + month * 100 + day], and two such dates with the
    same number are the same date; for an earlier year the call raises
    the [ValueError] of [strftime]. *)
Theorem date_to_date_num_value :
  (forall d, valid_date d -> 1900 <= year d ->
     date_to_date_num d = Ok (year d * 10000 + month d * 100 + day d)) /\
  (forall a b, valid_date a -> valid_date b ->
     1900 <= year a -> 1900 <= year b ->
     date_to_date_num a = date_to_date_num b -> a = b) /\
  (forall d, year d < 1900 ->
     exists e, date_to_date_num d = Raise e /\ exn_cls e = ValueError).
Proof.
  split; [| split].
  - intros [y m dd] Hok Hy. now apply date_to_date_num_ok.
  - intros [ya ma da] [yb mb db] Ha Hb Hya Hyb.
    unfold valid_date in *. simpl in *.
    rewrite !date_to_date_num_ok by assumption.
    destruct (date_ok_bounds _ _ _ Ha) as (_ & ? & ?).
    destruct (date_ok_bounds _ _ _ Hb) as (_ & ? & ?).
    intros Heq. inversion Heq. f_equal; lia.
  - intros [y m dd] Hy. simpl in Hy.
    unfold date_to_date_num, strftime_Ymd. cbn [year month day].
    replace (y <? 1900) with true by (symmetry; apply Z.ltb_lt; lia).
    eexists. split; reflexivity.
Qed.

Lemma date_to_date_num_value_witness :
  date_to_date_num (Date 2011 1 12) = Ok 20110112 /\
  (exists e, date_to_date_num (Date 1899 12 31) = Raise e).
Proof.
  destruct date_to_date_num_value as (Hv & _ & He). split.
  - apply (Hv (Date 2011 1 12)); [reflexivity | simpl; lia].
  - destruct (He (Date 1899 12 31)) as (e & H & _); [simpl; lia |].
    exists e. exact H.
Defined.

(** X5.  For a shot number that is not negative, [shot_to_date_num] is
    [19000000 + shot / 1000] whenever the shot decodes to a date, as it
    does for every shot [shot_valid] accepts.  Otherwise the exception
    of the date constructor comes out of [shot_to_date_num] as it is:
    an [OverflowError] when the year field does not fit a C [int], a
    [ValueError] when it does. *)
Theorem shot_to_date_num_value (shot : Z) :
  0 <= shot ->
  match shot_to_date shot with
  | Ok _ => shot_to_date_num shot = Ok (19000000 + shot / 1000)
  | Raise e =>
      shot_to_date_num shot = Raise e /\
      exn_cls e = (if shot / 10000000 + 1900 >? 2147483647
                   then OverflowError else ValueError)
  end /\
  (shot_valid shot = Ok true ->
   shot_to_date_num shot = Ok (19000000 + shot / 1000)).
Proof.
  intros Hs.
  assert (H : match shot_to_date shot with
              | Ok _ => shot_to_date_num shot = Ok (19000000 + shot / 1000)
              | Raise e =>
                  shot_to_date_num shot = Raise e /\
                  exn_cls e = (if shot / 10000000 + 1900 >? 2147483647
                               then OverflowError else ValueError)
              end).
  { unfold shot_to_date_num.
    destruct (shot_to_date shot) as [d | e] eqn:Hd.
    - unfold shot_to_date in Hd. cbv zeta in Hd.
      apply datetime_date_inv in Hd as [Hok ->].
      unfold rbind. rewrite date_to_date_num_ok;
        [| exact Hok | Z.div_mod_to_equations; lia].
      f_equal. Z.div_mod_to_equations; lia.
    - split; [reflexivity |].
      unfold shot_to_date, datetime_date, c_int in Hd. cbv zeta in Hd.
      pose proof (Z.mod_pos_bound (shot / 100000) 100 ltac:(lia)) as Hm.
      pose proof (Z.mod_pos_bound (shot / 1000) 100 ltac:(lia)) as Hdd.
      assert (Hy : 0 <= shot / 10000000) by (apply Z.div_pos; lia).
      revert Hd.
      destruct (Z.gtb_spec (shot / 10000000 + 1900) 2147483647);
        [intros Hd; simplify_eq; reflexivity |].
      destruct (Z.ltb_spec (shot / 10000000 + 1900) (-2147483648)); [lia |].
      destruct (Z.gtb_spec ((shot / 100000) mod 100) 2147483647); [lia |].
      destruct (Z.ltb_spec ((shot / 100000) mod 100) (-2147483648)); [lia |].
      destruct (Z.gtb_spec ((shot / 1000) mod 100) 2147483647); [lia |].
      destruct (Z.ltb_spec ((shot / 1000) mod 100) (-2147483648)); [lia |].
      destruct (date_ok _ _ _); intros Hd; simplify_eq; reflexivity. }
  split; [exact H |].
  intros Hv. unfold shot_valid in Hv.
  destruct (_ || _); [discriminate |].
  destruct (shot_to_date shot); [exact H |].
  destruct (derives_Exception e); discriminate.
Qed.

Lemma shot_to_date_num_value_witness :
  shot_to_date_num 1100502001 = Ok 20100502.
Proof.
  destruct (shot_to_date_num_value 1100502001) as [_ H]; [lia |].
  apply H. reflexivity.
Defined.

(** * Routing *)

(** X6.  With today's date and the date of a shot both in the years 2000
    to 2899, a shot is routed to dave exactly when its date is before
    today, and to aurora otherwise (today and later); the two addresses
    differ, and routing leaves the world as it is. *)
Theorem routing_follows_the_calendar (today d : date) (s : Z) :
  shot_era today -> shot_era d ->
  min_shot_for_date d <= s <= max_shot_for_date d ->
  (server_for today s = dave <-> date_lt d today) /\
  (server_for today s = aurora <-> ~ date_lt d today) /\
  aurora <> dave /\
  (forall w, get_server_for_shot s w = (w, Ok (server_for (clock w) s))).
Proof.
  intros Ht Hd Hs.
  destruct (era_shot_order d today Hd Ht) as [Hmax Hmin].
  unfold server_for.
  destruct (s >=? min_shot_for_date today) eqn:Hge.
  - apply Z.geb_le in Hge.
    assert (Hn : ~ date_lt d today).
    { intros Hlt. apply Hmax in Hlt. lia. }
    repeat split; try tauto; try discriminate.
  - rewrite Z.geb_leb in Hge. apply Z.leb_gt in Hge.
    assert (Hl : date_lt d today).
    { apply Hmin. unfold max_shot_for_date in Hs. lia. }
    repeat split; try tauto; try discriminate.
Qed.

Lemma routing_follows_the_calendar_witness :
  server_for (Date 2014 1 1) 1131231042 = dave /\
  server_for (Date 2014 1 1) 1140101001 = aurora.
Proof.
  split.
  - apply (routing_follows_the_calendar (Date 2014 1 1) (Date 2013 12 31)).
    + split; [reflexivity | simpl; lia].
    + split; [reflexivity | simpl; lia].
    + vm_compute. split; discriminate.
    + left. simpl. lia.
  - apply (routing_follows_the_calendar (Date 2014 1 1) (Date 2014 1 1)).
    + split; [reflexivity | simpl; lia].
    + split; [reflexivity | simpl; lia].
    + vm_compute. split; discriminate.
    + unfold date_lt. simpl. lia.
Defined.

(** * More on the session table *)

Lemma keeps_weaken {A} (R R' : world -> world -> Prop) (m : M A) :
  (forall w w', R w w' -> R' w w') -> keeps R m -> keeps R' m.
Proof. intros HR Hm w w' r H. apply HR. eapply Hm. exact H. Qed.

#[local] Instance sessions_same_frame : Frame sessions_same.
Proof.
  split.
  - intros w. repeat split.
  - unfold sessions_same, table_same.
    intros a b c ((? & ? & ?) & ? & ? & ?) ((? & ? & ?) & ? & ? & ?).
    repeat split; congruence.
Qed.

#[local] Instance wf_kept_frame : Frame wf_kept.
Proof. split; unfold wf_kept; auto. Qed.

Lemma sessions_same_wf_kept w w' : sessions_same w w' -> wf_kept w w'.
Proof.
  unfold sessions_same, table_same, wf_kept, table_wf.
  intros ((-> & -> & ->) & -> & -> & _). auto.
Qed.

Lemma server_for_cases today shot :
  server_for today shot = aurora \/ server_for today shot = dave.
Proof. unfold server_for. destruct (_ >=? _); auto. Qed.

Lemma wf_grow C T S A l x :
  wf_fields C T S A l -> wf_fields C T S A (l ++ [x]).
Proof.
  intros (H1 & H2 & H3 & H4). repeat split; try apply H1; try apply H2.
  - eapply H3; eassumption.
  - destruct (H3 _ _ H) as [_ Hl].
    rewrite lookup_app_l; [exact Hl | eapply lookup_lt_Some; exact Hl].
  - intros c Hc. specialize (H4 c Hc).
    rewrite lookup_app_l; [exact H4 | eapply lookup_lt_Some; exact H4].
Qed.

Lemma wf_insert C T S A l svr c t s :
  wf_fields C T S A l -> l !! c = Some svr -> svr = aurora \/ svr = dave ->
  wf_fields (<[svr := c]> C) (<[svr := t]> T) (<[svr := s]> S) A l.
Proof.
  intros (H1 & H2 & H3 & H4) Hl Hs. repeat split.
  - destruct (decide (svr = svr0)) as [-> |];
      [rewrite !lookup_insert_eq; discriminate
      | rewrite !lookup_insert_ne by assumption; apply H1].
  - destruct (decide (svr = svr0)) as [-> |];
      [rewrite !lookup_insert_eq; discriminate
      | rewrite !lookup_insert_ne by assumption; apply H1].
  - destruct (decide (svr = svr0)) as [-> |];
      [rewrite !lookup_insert_eq; discriminate
      | rewrite !lookup_insert_ne by assumption; apply H2].
  - destruct (decide (svr = svr0)) as [-> |];
      [rewrite !lookup_insert_eq; discriminate
      | rewrite !lookup_insert_ne by assumption; apply H2].
  - destruct (decide (svr = svr0)) as [-> |]; [exact Hs |].
    rewrite lookup_insert_ne in H by assumption. eapply H3; eassumption.
  - destruct (decide (svr = svr0)) as [-> |].
    + rewrite lookup_insert_eq in H. inversion H; subst. exact Hl.
    + rewrite lookup_insert_ne in H by assumption. eapply H3; eassumption.
  - exact H4.
Qed.

Lemma wf_bind_aurora C T S A l :
  wf_fields C T S A l ->
  wf_fields C T S (Some (length l)) (l ++ [aurora]).
Proof.
  intros H. destruct (wf_grow C T S A l aurora H) as (H1 & H2 & H3 & _).
  repeat split; try apply H1; try apply H2; try (eapply H3; eassumption).
  intros c Hc. inversion Hc; subst. apply list_lookup_middle. reflexivity.
Qed.

Section SessionExtra.

Variable E : env.

Ltac session_run H :=
  unfold get_connection, get_server_for_shot, _get_svr_cached,
    _update_svr_cache, Connection, closeAllTrees, openTree, conn_get,
    try_except, bind, ret in H;
  repeat case_match; simplify_eq.

Lemma get_connection_wf shot tree :
  keeps wf_kept (get_connection E shot tree).
Proof.
  intros w w' r H Hwf. unfold table_wf in *.
  pose proof (server_for_cases (clock w) shot) as Hsv.
  assert (Hnew : (conns w ++ [server_for (clock w) shot]) !! length (conns w)
                 = Some (server_for (clock w) shot))
    by (apply list_lookup_middle; reflexivity).
  assert (Hold : forall c, _SVR_CONNS w !! server_for (clock w) shot = Some c ->
                           conns w !! c = Some (server_for (clock w) shot)).
  { intros c Hc. destruct Hwf as (_ & _ & H3 & _). now apply (H3 _ _ Hc). }
  session_run H; simpl;
    first [ exact Hwf
          | apply wf_grow; exact Hwf
          | apply wf_insert; [exact Hwf | auto | exact Hsv]
          | apply wf_insert; [apply wf_grow; exact Hwf | exact Hnew | exact Hsv] ].
Qed.

(** The remote evaluation and the disk operations leave the session
    state alone. *)
Ltac sessions_prim :=
  let H := fresh in
  intros ? ? ? H;
  unfold conn_get, path_exists, makedirs, open_rb, open_wb, cPickle_load,
    cPickle_dump in H;
  repeat case_match; simplify_eq; repeat split.

Lemma conn_get_sessions c expr : keeps sessions_same (conn_get E c expr).
Proof. sessions_prim. Qed.

Lemma path_exists_sessions d : keeps sessions_same (path_exists d).
Proof. sessions_prim. Qed.

Lemma makedirs_sessions d : keeps sessions_same (makedirs d).
Proof. sessions_prim. Qed.

Lemma open_rb_sessions p : keeps sessions_same (open_rb p).
Proof. sessions_prim. Qed.

Lemma open_wb_sessions p : keeps sessions_same (open_wb p).
Proof. sessions_prim. Qed.

Lemma cPickle_load_sessions p f : keeps sessions_same (cPickle_load p f).
Proof. sessions_prim. Qed.

Lemma cPickle_dump_sessions v p : keeps sessions_same (cPickle_dump E v p).
Proof. sessions_prim. Qed.

#[local] Hint Resolve conn_get_sessions path_exists_sessions makedirs_sessions
  open_rb_sessions open_wb_sessions cPickle_load_sessions
  cPickle_dump_sessions : frames.

Lemma _load_from_cache_sessions tree shot expr :
  keeps sessions_same (_load_from_cache E tree shot expr).
Proof. unfold _load_from_cache, _cache_path. frame. Qed.

Lemma _save_to_cache_sessions tree shot expr data :
  keeps sessions_same (_save_to_cache E tree shot expr data).
Proof. unfold _save_to_cache, _cache_path. frame. Qed.

Lemma conn_get_wf c expr : keeps wf_kept (conn_get E c expr).
Proof.
  eapply keeps_weaken; [exact sessions_same_wf_kept | apply conn_get_sessions].
Qed.

Lemma _load_from_cache_wf tree shot expr :
  keeps wf_kept (_load_from_cache E tree shot expr).
Proof.
  eapply keeps_weaken;
    [exact sessions_same_wf_kept | apply _load_from_cache_sessions].
Qed.

Lemma _save_to_cache_wf tree shot expr data :
  keeps wf_kept (_save_to_cache E tree shot expr data).
Proof.
  eapply keeps_weaken;
    [exact sessions_same_wf_kept | apply _save_to_cache_sessions].
Qed.

#[local] Hint Resolve get_connection_wf conn_get_wf _load_from_cache_wf
  _save_to_cache_wf : frames.

Lemma get_signal_wf shot signal tree uc :
  keeps wf_kept (get_signal E shot signal tree uc).
Proof. unfold get_signal, fetch_signal. frame. Qed.

Lemma get_signal_units_wf shot signal tree uc :
  keeps wf_kept (get_signal_units E shot signal tree uc).
Proof. unfold get_signal_units, fetch_units. frame. Qed.

Lemma current_shot_wf : keeps wf_kept (current_shot E).
Proof.
  intros w w' r H Hwf. unfold table_wf in *.
  unfold current_shot, aurora_get, try_except, bind, Connection, conn_get,
    lift in H.
  repeat case_match; simplify_eq; simpl in *; simplify_eq;
    try match goal with X : _AURORA _ = _ |- _ => rewrite X end;
    first [ eassumption | apply wf_grow; eassumption
          | eapply wf_bind_aurora; eassumption ].
Qed.

Lemma exec_wf c w : table_wf w -> table_wf (exec E c w).
Proof.
  intros Hwf. destruct c as [shot tree | shot signal tree uc
                            | shot signal tree uc |]; simpl.
  - destruct (get_connection E shot tree w) as [w' r] eqn:H.
    exact (get_connection_wf _ _ _ _ _ H Hwf).
  - destruct (get_signal E shot signal tree uc w) as [w' r] eqn:H.
    exact (get_signal_wf _ _ _ _ _ _ _ H Hwf).
  - destruct (get_signal_units E shot signal tree uc w) as [w' r] eqn:H.
    exact (get_signal_units_wf _ _ _ _ _ _ _ H Hwf).
  - destruct (current_shot E w) as [w' r] eqn:H.
    exact (current_shot_wf _ _ _ H Hwf).
Qed.

(** X7.  In every process, from the import of the module on, the three
    dictionaries of the session table have the same keys, the keys are
    aurora and dave only, the connection recorded for a server was made
    to that server, and the connection in [_AURORA] was made to aurora.
    So the table holds a session for a server exactly when
    [_SVR_CONNS] has the server as a key. *)
Theorem session_table_invariant (cs : list call) :
  (forall today, table_wf (run E cs (fresh today))) /\
  (forall w, table_wf w -> table_wf (run E cs w)) /\
  (forall w svr, table_wf w -> session_at w svr = _SVR_CONNS w !! svr).
Proof.
  assert (Hrun : forall w, table_wf w -> table_wf (run E cs w)).
  { induction cs as [| c cs' IH]; intros w Hwf; [exact Hwf |].
    simpl. apply IH. apply exec_wf. exact Hwf. }
  split; [| split].
  - intros today. apply Hrun. unfold table_wf, fresh. simpl.
    repeat split; intros; try rewrite lookup_empty in *;
      try reflexivity; try discriminate.
  - exact Hrun.
  - intros w svr (H1 & H2 & _). unfold session_at.
    destruct (_SVR_CONNS w !! svr) as [c |] eqn:Hc; [| reflexivity].
    destruct (_SVR_TREES w !! svr) as [t |] eqn:Ht.
    + destruct (_SVR_SHOTS w !! svr) as [s |] eqn:Hs; [reflexivity |].
      apply H2 in Hs. congruence.
    + apply H1 in Ht. congruence.
Qed.

(** X8.  A call of [get_connection] that raises leaves the session table
    as it was and has stayed off the disk; what it raises is the
    exception of [mds.Connection] or of [openTree], never that of
    [closeAllTrees]. *)
Theorem get_connection_failure shot tree w w' e :
  get_connection E shot tree w = (w', Raise e) ->
  table_same w w' /\ off_disk w w' /\
  ((exists h svr, mds_Connection E h svr = Some e) \/
   (exists h c, mds_openTree E h c tree shot = Some e)).
Proof.
  intros H. split; [| split].
  - clear - H. session_run H; repeat split.
  - eapply get_connection_off_disk. exact H.
  - clear - H. session_run H; eauto.
Qed.

(** X9.  A call of [get_connection] changes no table entry but that of
    the server the shot is routed to. *)
Theorem get_connection_other_servers shot tree w w' r :
  get_connection E shot tree w = (w', r) ->
  others_same (server_for (clock w) shot) w w'.
Proof.
  intros H s Hs. session_run H; simpl;
    rewrite ?lookup_insert_ne by congruence; auto.
Qed.

(** X10.  On a server for which the table holds no session,
    [get_connection] makes a connection.  If that fails, the call
    raises the exception and the table is unchanged.  Otherwise it calls
    [closeAllTrees] and then [openTree] on the new connection; if
    [openTree] raises, the call raises the same and the table is
    unchanged, else the table records the new connection with the
    requested pair. *)
Theorem get_connection_first_use shot tree w :
  let svr := server_for (clock w) shot in
  let c := length (conns w) in
  session_at w svr = None ->
  exists w' r,
    get_connection E shot tree w = (w', r) /\
    match mds_Connection E (ELookup svr :: trace w) svr with
    | Some e =>
        r = Raise e /\ table_same w w' /\
        trace w' = EConnect svr :: ELookup svr :: trace w
    | None =>
        conns w' = conns w ++ [svr] /\
        trace w' = EOpenTree c tree shot :: ECloseAllTrees c :: EConnect svr
                     :: ELookup svr :: trace w /\
        match mds_openTree E (ECloseAllTrees c :: EConnect svr :: ELookup svr
                                :: trace w) c tree shot with
        | Some e => r = Raise e /\ table_same w w'
        | None => r = Ok c /\ session_at w' svr = Some c /\
                  open_pair w' svr = Some (tree, shot)
        end
    end.
Proof.
  intros svr c Hs.
  assert (Hlook : _get_svr_cached svr w
                  = (log (ELookup svr) w, Ok (None, None, None))).
  { unfold _get_svr_cached, session_at in *. f_equal.
    destruct (_SVR_CONNS w !! svr); [| reflexivity].
    destruct (_SVR_TREES w !! svr); [| reflexivity].
    destruct (_SVR_SHOTS w !! svr); [discriminate | reflexivity]. }
  unfold get_connection, bind, get_server_for_shot. fold svr. rewrite Hlook.
  unfold Connection, closeAllTrees, openTree, try_except, _update_svr_cache,
    ret. simpl.
  destruct (mds_Connection E (ELookup svr :: trace w) svr); simpl.
  { do 2 eexists. split; [reflexivity |]. repeat split. }
  fold c.
  destruct (mds_closeAllTrees E _ c); simpl;
    destruct (mds_openTree E _ c tree shot); simpl;
    do 2 eexists; (split; [reflexivity |]); simpl;
    unfold session_at, open_pair; simpl; rewrite ?lookup_insert_eq;
    repeat split.
Qed.

Ltac current_shot_run H :=
  unfold current_shot, aurora_get, try_except, bind, Connection, conn_get,
    lift in H;
  repeat case_match; simplify_eq.


End SessionExtra.

Lemma session_table_invariant_witness :
  let w := run env_ok [CallGetSignal 1140101001 "ip" "mst" true;
                       CallCurrentShot] (fresh (Date 2014 1 1)) in
  table_wf (run env_ok [CallGetConnection 1131231001 "mst"] w) /\
  session_at w aurora = _SVR_CONNS w !! aurora.
Proof.
  intros w.
  assert (Hw : table_wf w).
  { apply (proj1 (session_table_invariant env_ok _)). }
  split.
  - apply (proj1 (proj2 (session_table_invariant env_ok _))). exact Hw.
  - apply (proj2 (proj2 (session_table_invariant env_ok [])) w aurora Hw).
Defined.

Lemma get_connection_failure_witness :
  let w := fresh (Date 2014 1 1) in
  table_same w (fst (get_connection env_no_tree 1140101001 "mst" w)).
Proof.
  intros w.
  destruct (get_connection_failure env_no_tree 1140101001 "mst" w
              (fst (get_connection env_no_tree 1140101001 "mst" w))
              (Exn MdsException "TreeNOT_FOUND")) as [H _];
    [vm_compute; reflexivity | exact H].
Defined.

Lemma get_connection_other_servers_witness :
  let w1 := fst (get_connection env_ok 1131231001 "mst" (fresh (Date 2014 1 1))) in
  let w2 := fst (get_connection env_ok 1140101001 "mst" w1) in
  _SVR_SHOTS w2 !! dave = Some 1131231001.
Proof.
  intros w1 w2.
  destruct (get_connection_other_servers env_ok 1140101001 "mst" w1 w2 (Ok 1%nat))
    with (s := dave) as (_ & _ & H).
  - vm_compute; reflexivity.
  - vm_compute. discriminate.
  - rewrite H. vm_compute; reflexivity.
Defined.

Lemma get_connection_first_use_witness :
  let w := fresh (Date 2014 1 1) in
  exists w',
    get_connection env_ok 1140101001 "mst" w = (w', Ok 0%nat) /\
    open_pair w' aurora = Some ("mst", 1140101001).
Proof.
  intros w.
  destruct (get_connection_first_use env_ok 1140101001 "mst" w)
    as (w' & r & Hrun & Hres); [vm_compute; reflexivity |].
  change (mds_Connection env_ok _ _) with (@None exn) in Hres.
  destruct Hres as (_ & _ & Hres).
  change (mds_openTree env_ok _ _ _ _) with (@None exn) in Hres.
  destruct Hres as (-> & _ & Hp). exists w'. split; assumption.
Defined.


(** * More on the result cache *)

Section CacheExtra.

Variable E : env.

Ltac bind_ok H :=
  let w1 := fresh "w" in
  let a := fresh "a" in
  let H1 := fresh "H" in
  let e := fresh "e" in
  apply bind_inv in H;
  destruct H as [(w1 & a & H1 & H) | (e & _ & ?)]; [| discriminate].

(** X12.  What [_save_to_cache] has written, [_load_from_cache] reads
    back: after a write that returned, the read of the same key returns
    the data written and does nothing but open and load the file. *)
Theorem save_then_load tree shot expr data w w' u :
  _save_to_cache E tree shot expr data w = (w', Ok u) ->
  let p := cache_file E tree shot expr in
  _load_from_cache E tree shot expr w'
  = (log (ELoad p) (log (EOpenRead p) w'), Ok data).
Proof.
  intros H p. destruct (save_ok _ _ _ _ _ _ _ _ H) as [Hf Hd].
  now apply load_hit.
Qed.

(** A write changes no file but the one of its key, and no access
    right. *)
Lemma save_effects tree shot expr data w w' r :
  _save_to_cache E tree shot expr data w = (w', r) ->
  (forall q, q <> cache_file E tree shot expr ->
     files w' !! q = files w !! q) /\
  denied w' = denied w.
Proof.
  intros H. rewrite _save_to_cache_unfold in H. cbv zeta in H.
  unfold bind, path_exists, makedirs, open_wb, cPickle_dump, ret in H.
  repeat case_match; simplify_eq; simpl;
    (split; [intros q Hq; rewrite ?lookup_insert_ne by congruence; reflexivity
            | reflexivity]).
Qed.


(** X14.  A read of the cache returns a value exactly when the file of
    the key is accessible and holds a complete pickle, and then it
    returns the pickled value.  Whether it returns or raises, it
    changes neither the disk nor the session state. *)
Theorem load_is_read_only tree shot expr w :
  let p := cache_file E tree shot expr in
  (forall v,
     (exists w', _load_from_cache E tree shot expr w = (w', Ok v)) <->
     files w !! p = Some (Pickled v) /\ p ∉ denied w) /\
  (forall w' r,
     _load_from_cache E tree shot expr w = (w', r) ->
     disk_same w w' /\ sessions_same w w' /\ grows is_disk w w').
Proof.
  intros p. split.
  - intros v. split.
    + intros [w' H]. destruct (load_ok_inv _ _ _ _ _ _ _ H) as (? & ? & _).
      auto.
    + intros [Hf Hd]. eexists. apply load_hit; assumption.
  - intros w' r H. split; [| split].
    + destruct r as [v | e].
      * destruct (load_ok_inv _ _ _ _ _ _ _ H) as (_ & _ & ->). repeat split.
      * now destruct (load_raise_inv _ _ _ _ _ _ _ H) as (_ & ? & _).
    + eapply _load_from_cache_sessions. exact H.
    + destruct r as [v | e].
      * destruct (load_ok_inv _ _ _ _ _ _ _ H) as (_ & _ & ->).
        exists [ELoad p; EOpenRead p]. split; [reflexivity | repeat constructor].
      * now destruct (load_raise_inv _ _ _ _ _ _ _ H) as (_ & _ & _ & ?).
Qed.

(** X15.  With [use_cache=True] and an accessible file holding a
    complete pickle at the key's path, [get_signal] and
    [get_signal_units] return the pickled value as it is, whatever its
    type, and do nothing but open and load the file: no table lookup,
    no network operation, no write. *)
Theorem cache_hit shot signal tree w v :
  (let p := cache_file E tree shot (signal_expr signal) in
   files w !! p = Some (Pickled v) -> p ∉ denied w ->
   get_signal E shot signal tree true w
   = (log (ELoad p) (log (EOpenRead p) w), Ok v)) /\
  (let p := cache_file E tree shot (units_expr signal) in
   files w !! p = Some (Pickled v) -> p ∉ denied w ->
   get_signal_units E shot signal tree true w
   = (log (ELoad p) (log (EOpenRead p) w), Ok v)).
Proof.
  split; intros p Hf Hd.
  - unfold get_signal, try_except.
    now rewrite (load_hit E tree shot (signal_expr signal) w v Hf Hd).
  - unfold get_signal_units, try_except.
    now rewrite (load_hit E tree shot (units_expr signal) w v Hf Hd).
Qed.

Lemma fetch_units_saved shot signal expr tree w w' v :
  fetch_units E shot signal expr tree true w = (w', Ok v) ->
  let p := cache_file E tree shot expr in
  files w' !! p = Some (Pickled v) /\ p ∉ denied w'.
Proof.
  unfold fetch_units. intros H.
  bind_ok H. bind_ok H. bind_ok H. bind_ok H. bind_ok H.
  unfold ret in H. simplify_eq. eapply save_ok; eassumption.
Qed.

(** X16.  When [get_signal_units] with [use_cache=True] has returned a
    value, the same call made again returns that value from the cache
    file alone, without table lookup or network operation. *)
Theorem units_round_trip shot signal tree w w1 v :
  get_signal_units E shot signal tree true w = (w1, Ok v) ->
  let p := cache_file E tree shot (units_expr signal) in
  files w1 !! p = Some (Pickled v) /\
  get_signal_units E shot signal tree true w1
  = (log (ELoad p) (log (EOpenRead p) w1), Ok v).
Proof.
  intros H p. unfold get_signal_units in H.
  assert (Hfile : files w1 !! p = Some (Pickled v) /\ p ∉ denied w1).
  { apply try_except_inv in H.
    destruct H as [(a & Hl & Ha) | (w' & e & Hl & Hf)].
    - simplify_eq. destruct (load_ok_inv _ _ _ _ _ _ _ Hl) as (Hf & Hd & ->).
      split; assumption.
    - eapply fetch_units_saved; eassumption. }
  destruct Hfile as [Hf Hd]. split; [exact Hf |].
  unfold get_signal_units, try_except.
  now rewrite (load_hit E tree shot (units_expr signal) w1 v Hf Hd).
Qed.

(** The fetch of [get_signal], taken apart: the session and network
    part stays off the disk; then either the call has raised, or a
    checked pair of arrays is at hand, which is written when caching is
    on. *)
Lemma fetch_signal_inv shot expr tree uc w w' r :
  fetch_signal E shot expr tree uc w = (w', r) ->
  exists w3,
    off_disk w w3 /\
    ((w' = w3 /\ exists e, r = Raise e) \/
     (exists t y,
        is_ndarray t = true /\ is_ndarray y = true /\
        if uc
        then exists rs,
               _save_to_cache E tree shot expr (PyTuple [t; y]) w3 = (w', rs) /\
               r = match rs with
                   | Ok _ => Ok (PyTuple [t; y])
                   | Raise e => Raise e
                   end
        else w' = w3 /\ r = Ok (PyTuple [t; y]))).
Proof.
  intros H.
  unfold fetch_signal, bind, lift, py_assert, ret, raise in H.
  destruct (get_connection E shot tree w) as [w1 [c | e]] eqn:Hc.
  2:{ simplify_eq. exists w'. split;
        [eapply get_connection_off_disk; exact Hc | left; eauto]. }
  destruct (conn_get E c expr w1) as [w2 [rr | e]] eqn:Hg.
  2:{ simplify_eq. exists w'. split; [| left; eauto].
      eapply frame_trans;
        [eapply get_connection_off_disk; exact Hc
        | eapply conn_get_off_disk; exact Hg]. }
  assert (Hoff : off_disk w w2).
  { eapply frame_trans;
      [eapply get_connection_off_disk; exact Hc
      | eapply conn_get_off_disk; exact Hg]. }
  exists w2. split; [exact Hoff |].
  destruct (unpack2 rr) as [[t y] | e]; [| simplify_eq; left; eauto].
  destruct (is_ndarray t) eqn:Ht; [| simplify_eq; left; eauto].
  destruct (is_ndarray y) eqn:Hy; [| simplify_eq; left; eauto].
  right. exists t, y. split; [exact Ht | split; [exact Hy |]].
  destruct uc.
  - destruct (_save_to_cache E tree shot expr (PyTuple [t; y]) w2)
      as [w4 [u | e]] eqn:Hs; simplify_eq; eexists; split; reflexivity.
  - simplify_eq. split; reflexivity.
Qed.

(** The fetch of [get_signal_units], likewise. *)
Lemma fetch_units_inv shot signal expr tree uc w w' r :
  fetch_units E shot signal expr tree uc w = (w', r) ->
  exists w3,
    off_disk w w3 /\
    ((w' = w3 /\ exists e, r = Raise e) \/
     (exists units,
        if uc
        then exists rs,
               _save_to_cache E tree shot expr (PyStr units) w3 = (w', rs) /\
               r = match rs with
                   | Ok _ => Ok (PyStr units)
                   | Raise e => Raise e
                   end
        else w' = w3 /\ r = Ok (PyStr units))).
Proof.
  intros H.
  unfold fetch_units, bind, lift, ret in H.
  destruct (get_connection E shot tree w) as [w1 [c | e]] eqn:Hc.
  2:{ simplify_eq. exists w'. split;
        [eapply get_connection_off_disk; exact Hc | left; eauto]. }
  destruct (str_format E expr signal) as [sent | e];
    [| simplify_eq; exists w'; split;
       [eapply get_connection_off_disk; exact Hc | left; eauto]].
  destruct (conn_get E c sent w1) as [w2 [rr | e]] eqn:Hg.
  2:{ simplify_eq. exists w'. split; [| left; eauto].
      eapply frame_trans;
        [eapply get_connection_off_disk; exact Hc
        | eapply conn_get_off_disk; exact Hg]. }
  assert (Hoff : off_disk w w2).
  { eapply frame_trans;
      [eapply get_connection_off_disk; exact Hc
      | eapply conn_get_off_disk; exact Hg]. }
  exists w2. split; [exact Hoff |].
  destruct (tostring E rr) as [units | e]; [| simplify_eq; left; eauto].
  right. exists units.
  destruct uc.
  - destruct (_save_to_cache E tree shot expr (PyStr units) w2)
      as [w4 [u | e]] eqn:Hs; simplify_eq; eexists; split; reflexivity.
  - simplify_eq. split; reflexivity.
Qed.

Lemma unloadable_disk_same p w w' :
  disk_same w w' -> unloadable p w -> unloadable p w'.
Proof. unfold disk_same, unloadable. intros (-> & _ & ->). auto. Qed.

(** A write that raises makes no unreadable key readable. *)
Lemma save_raise_unloadable tree shot expr data w w' e :
  _save_to_cache E tree shot expr data w = (w', Raise e) ->
  let p := cache_file E tree shot expr in
  unloadable p w -> unloadable p w'.
Proof.
  intros H p. rewrite _save_to_cache_unfold in H. fold p in H. cbv zeta in H.
  unfold bind, path_exists, makedirs, open_wb, cPickle_dump, ret in H.
  unfold unloadable.
  repeat case_match; simplify_eq; simpl; rewrite ?lookup_insert_eq; auto.
Qed.

(** X17.  A call of [get_signal] or [get_signal_units] with
    [use_cache=True] that finds no readable entry for its key (the path
    is denied, the file is absent or does not hold a complete pickle)
    and raises leaves no readable entry either: the read of the key
    raises afterwards as well.  A call that failed, also one whose
    cache write broke off, creates no entry that a later call would be
    answered from. *)
Theorem failed_call_caches_nothing shot signal tree w w' e :
  (unloadable (cache_file E tree shot (signal_expr signal)) w ->
   get_signal E shot signal tree true w = (w', Raise e) ->
   unloadable (cache_file E tree shot (signal_expr signal)) w' /\
   exists w2 e2,
     _load_from_cache E tree shot (signal_expr signal) w' = (w2, Raise e2)) /\
  (unloadable (cache_file E tree shot (units_expr signal)) w ->
   get_signal_units E shot signal tree true w = (w', Raise e) ->
   unloadable (cache_file E tree shot (units_expr signal)) w' /\
   exists w2 e2,
     _load_from_cache E tree shot (units_expr signal) w' = (w2, Raise e2)).
Proof.
  split; intros Hu H.
  - assert (Hu' : unloadable (cache_file E tree shot (signal_expr signal)) w');
      [| split; [exact Hu' | apply load_raises; exact Hu']].
    unfold get_signal in H. apply try_except_inv in H.
    destruct H as [(a & _ & Ha) | (w1 & e1 & Hl & Hf)]; [discriminate |].
    destruct (load_raise_inv _ _ _ _ _ _ _ Hl) as (_ & Hd1 & _).
    pose proof (unloadable_disk_same _ _ _ Hd1 Hu) as Hu1.
    destruct (fetch_signal_inv _ _ _ _ _ _ _ Hf) as (w3 & [Hd _] & Hcase).
    pose proof (unloadable_disk_same _ _ _ Hd Hu1) as Hu3.
    destruct Hcase as [[-> _] | (t & y & _ & _ & rs & Hs & Hr)];
      [exact Hu3 |].
    destruct rs as [u | e3]; [discriminate |].
    eapply save_raise_unloadable; eassumption.
  - assert (Hu' : unloadable (cache_file E tree shot (units_expr signal)) w');
      [| split; [exact Hu' | apply load_raises; exact Hu']].
    unfold get_signal_units in H. apply try_except_inv in H.
    destruct H as [(a & _ & Ha) | (w1 & e1 & Hl & Hf)]; [discriminate |].
    destruct (load_raise_inv _ _ _ _ _ _ _ Hl) as (_ & Hd1 & _).
    pose proof (unloadable_disk_same _ _ _ Hd1 Hu) as Hu1.
    destruct (fetch_units_inv _ _ _ _ _ _ _ _ Hf) as (w3 & [Hd _] & Hcase).
    pose proof (unloadable_disk_same _ _ _ Hd Hu1) as Hu3.
    destruct Hcase as [[-> _] | (units & rs & Hs & Hr)]; [exact Hu3 |].
    destruct rs as [u | e3]; [discriminate |].
    eapply save_raise_unloadable; eassumption.
Qed.

#[local] Instance path_kept_frame q : Frame (path_kept q).
Proof.
  split.
  - intros w. split; reflexivity.
  - unfold path_kept. intros a b c [] []. split; congruence.
Qed.

Lemma disk_same_path_kept q w w' : disk_same w w' -> path_kept q w w'.
Proof. unfold disk_same, path_kept. intros (-> & _ & ->). auto. Qed.

Lemma current_shot_disk_same : keeps disk_same (current_shot E).
Proof.
  intros w w' r H.
  unfold current_shot, aurora_get, try_except, bind, Connection, conn_get,
    lift in H.
  repeat case_match; simplify_eq; repeat split.
Qed.

(** A write under another path leaves the path alone. *)
Lemma save_path_kept q tree shot expr data w w' r :
  _save_to_cache E tree shot expr data w = (w', r) ->
  cache_file E tree shot expr <> q -> path_kept q w w'.
Proof.
  intros H Hne. destruct (save_effects _ _ _ _ _ _ _ H) as (Hq & Hden).
  split; [apply Hq; congruence | exact Hden].
Qed.

Lemma get_signal_path_kept q shot signal tree uc :
  written_path E (CallGetSignal shot signal tree uc) <> Some q ->
  keeps (path_kept q) (get_signal E shot signal tree uc).
Proof.
  intros Hne w w' r H. destruct uc.
  - assert (Hp : cache_file E tree shot (signal_expr signal) <> q)
      by (intros <-; apply Hne; reflexivity).
    unfold get_signal in H. apply try_except_inv in H.
    destruct H as [(a & Hl & _) | (w1 & e1 & Hl & Hf)].
    + destruct (load_ok_inv _ _ _ _ _ _ _ Hl) as (_ & _ & ->).
      split; reflexivity.
    + destruct (load_raise_inv _ _ _ _ _ _ _ Hl) as (_ & Hd1 & _).
      destruct (fetch_signal_inv _ _ _ _ _ _ _ Hf) as (w3 & [Hd3 _] & Hcase).
      assert (K3 : path_kept q w w3)
        by (eapply frame_trans; apply disk_same_path_kept; eassumption).
      destruct Hcase as [[-> _] | (t & y & _ & _ & rs & Hs & _)];
        [exact K3 |].
      eapply frame_trans; [exact K3 |].
      eapply save_path_kept; eassumption.
  - apply disk_same_path_kept.
    exact (proj1 (fetch_signal_off_disk E _ _ _ _ _ _ H)).
Qed.

Lemma get_signal_units_path_kept q shot signal tree uc :
  written_path E (CallGetSignalUnits shot signal tree uc) <> Some q ->
  keeps (path_kept q) (get_signal_units E shot signal tree uc).
Proof.
  intros Hne w w' r H. destruct uc.
  - assert (Hp : cache_file E tree shot (units_expr signal) <> q)
      by (intros <-; apply Hne; reflexivity).
    unfold get_signal_units in H. apply try_except_inv in H.
    destruct H as [(a & Hl & _) | (w1 & e1 & Hl & Hf)].
    + destruct (load_ok_inv _ _ _ _ _ _ _ Hl) as (_ & _ & ->).
      split; reflexivity.
    + destruct (load_raise_inv _ _ _ _ _ _ _ Hl) as (_ & Hd1 & _).
      destruct (fetch_units_inv _ _ _ _ _ _ _ _ Hf) as (w3 & [Hd3 _] & Hcase).
      assert (K3 : path_kept q w w3)
        by (eapply frame_trans; apply disk_same_path_kept; eassumption).
      destruct Hcase as [[-> _] | (units & rs & Hs & _)]; [exact K3 |].
      eapply frame_trans; [exact K3 |].
      eapply save_path_kept; eassumption.
  - apply disk_same_path_kept.
    exact (proj1 (fetch_units_off_disk E _ _ _ _ _ _ _ H)).
Qed.

Lemma exec_path_kept q c w :
  written_path E c <> Some q -> path_kept q w (exec E c w).
Proof.
  intros Hne.
  destruct c as [shot tree | shot signal tree uc
                | shot signal tree uc |]; simpl.
  - destruct (get_connection E shot tree w) as [w' r] eqn:H.
    apply disk_same_path_kept.
    exact (proj1 (get_connection_off_disk E _ _ _ _ _ H)).
  - destruct (get_signal E shot signal tree uc w) as [w' r] eqn:H.
    exact (get_signal_path_kept q _ _ _ _ Hne _ _ _ H).
  - destruct (get_signal_units E shot signal tree uc w) as [w' r] eqn:H.
    exact (get_signal_units_path_kept q _ _ _ _ Hne _ _ _ H).
  - destruct (current_shot E w) as [w' r] eqn:H.
    apply disk_same_path_kept. exact (current_shot_disk_same _ _ _ H).
Qed.


Lemma save_raise_file tree shot expr data w w' e :
  _save_to_cache E tree shot expr data w = (w', Raise e) ->
  let p := cache_file E tree shot expr in
  files w' !! p = files w !! p \/ files w' !! p = Some Garbage.
Proof.
  intros H p. rewrite _save_to_cache_unfold in H. fold p in H. cbv zeta in H.
  unfold bind, path_exists, makedirs, open_wb, cPickle_dump, ret in H.
  repeat case_match; simplify_eq; simpl; rewrite ?lookup_insert_eq; auto.
Qed.

(** X19.  What [get_signal] returns is a tuple of two numpy arrays,
    unless it is the content of a cache file that was there before the
    call; and the only things the call can leave in the cache file of
    its key are what was there, an incomplete file from a failed write,
    or the pickle of the checked pair it returns. *)
Theorem get_signal_result_checked shot signal tree uc w w' r :
  get_signal E shot signal tree uc w = (w', r) ->
  let p := cache_file E tree shot (signal_expr signal) in
  (forall v, r = Ok v ->
     is_array_pair v = true \/
     (uc = true /\ files w !! p = Some (Pickled v))) /\
  (files w' !! p = files w !! p \/
   files w' !! p = Some Garbage \/
   exists v, files w' !! p = Some (Pickled v) /\ is_array_pair v = true /\
             r = Ok v).
Proof.
  intros H p.
  assert (Hfetch : forall w1, disk_same w w1 ->
            fetch_signal E shot (signal_expr signal) tree uc w1 = (w', r) ->
            (forall v, r = Ok v -> is_array_pair v = true) /\
            (files w' !! p = files w !! p \/
             files w' !! p = Some Garbage \/
             exists v, files w' !! p = Some (Pickled v) /\
                       is_array_pair v = true /\ r = Ok v)).
  { intros w1 (Hf1 & _ & _) Hf.
    destruct (fetch_signal_inv _ _ _ _ _ _ _ Hf)
      as (w3 & [(Hf3 & _ & _) _] & Hcase).
    destruct Hcase as [[-> [e ->]] | (t & y & Ht & Hy & Hrest)].
    - split; [intros v Hv; discriminate | left; congruence].
    - assert (Hpair : is_array_pair (PyTuple [t; y]) = true)
        by (simpl; now rewrite Ht, Hy).
      destruct uc.
      + destruct Hrest as (rs & Hs & ->). destruct rs as [u | e].
        * split; [intros v Hv; now inversion Hv |].
          right. right. exists (PyTuple [t; y]).
          destruct (save_ok _ _ _ _ _ _ _ _ Hs) as [Hp _]. auto.
        * split; [intros v Hv; discriminate |].
          destruct (save_raise_file _ _ _ _ _ _ _ Hs) as [Hp | Hp];
            [left; fold p in Hp; congruence | right; left; exact Hp].
      + destruct Hrest as [-> ->].
        split; [intros v Hv; now inversion Hv | left; congruence]. }
  unfold get_signal in H. destruct uc.
  - apply try_except_inv in H.
    destruct H as [(a & Hl & ->) | (w1 & e1 & Hl & Hf)].
    + destruct (load_ok_inv _ _ _ _ _ _ _ Hl) as (Hp & _ & ->).
      split; [| left; reflexivity].
      intros v Hv. inversion Hv; subst. right. auto.
    + destruct (load_raise_inv _ _ _ _ _ _ _ Hl) as (_ & Hd1 & _).
      destruct (Hfetch w1 Hd1 Hf) as [H1 H2]. split; [| exact H2].
      intros v Hv. left. now apply H1.
  - destruct (Hfetch w (frame_refl w) H) as [H1 H2]. split; [| exact H2].
    intros v Hv. left. now apply H1.
Qed.

Lemma format_simple_plain s arg :
  no_brace s = true -> format_simple FText s arg = Some (Ok s).
Proof.
  induction s as [| a r IH]; [reflexivity |].
  simpl. unfold is_brace. intros H. apply andb_prop in H. destruct H as [Ha Hr].
  apply negb_true_iff, orb_false_iff in Ha. destruct Ha as [Hl Hrb].
  rewrite Hl, Hrb, (IH Hr). reflexivity.
Qed.

Lemma no_brace_app a b : no_brace (a +:+ b) = no_brace a && no_brace b.
Proof.
  induction a as [| x a IH]; [reflexivity |].
  change (no_brace (String x (a +:+ b))
          = no_brace (String x a) && no_brace b).
  simpl. rewrite IH. now rewrite andb_assoc.
Qed.

Lemma units_format_plain signal :
  no_brace signal = true ->
  str_format E (units_expr signal) signal = Ok (units_expr signal).
Proof.
  intros H. unfold str_format. rewrite format_simple_plain; [reflexivity |].
  unfold units_expr. rewrite !no_brace_app, H. reflexivity.
Qed.

Lemma units_tail_unchanged r :
  keeps unchanged
    (units <- lift (tostring E r) ;; ret tt ;;; ret (PyStr units)).
Proof. frame. Qed.

(** X20.  With [use_cache=False], [get_signal] for any signal and
    [get_signal_units] for a signal name without braces consult the
    table and then perform network operations only, at least one; they
    never touch the disk; and a call that returns has ended with the
    remote evaluation of its expression on the session the table holds
    for the server of the shot. *)
Theorem no_cache_goes_to_network shot signal tree w w' r :
  let svr := server_for (clock w) shot in
  (get_signal E shot signal tree false w = (w', r) ->
   off_disk w w' /\
   exists new,
     trace w' = new ++ ELookup svr :: trace w /\
     Forall (fun e => is_network e = true) new /\ new <> [] /\
     forall v, r = Ok v ->
       exists c, session_at w' svr = Some c /\
                 head new = Some (EGet c (signal_expr signal))) /\
  (no_brace signal = true ->
   get_signal_units E shot signal tree false w = (w', r) ->
   off_disk w w' /\
   exists new,
     trace w' = new ++ ELookup svr :: trace w /\
     Forall (fun e => is_network e = true) new /\ new <> [] /\
     forall v, r = Ok v ->
       exists c, session_at w' svr = Some c /\
                 head new = Some (EGet c (units_expr signal))).
Proof.
  intros svr. split.
  { intros H. exact (get_signal_no_cache E _ _ _ _ _ _ H). }
  intros Hnb H. split.
  { eapply fetch_units_off_disk; exact H. }
  unfold get_signal_units, fetch_units in H.
  apply bind_inv in H. destruct H as [(w1 & c & Hc & H) | (e & Hc & ->)].
  - destruct (get_connection_trace _ _ _ _ _ _ Hc) as (new & Htr & Hnet & _).
    destruct (get_connection_records _ _ _ _ _ _ Hc) as (Rc & Rt & Rs & _).
    unfold bind at 1 in H. unfold lift at 1 in H.
    rewrite (units_format_plain signal Hnb) in H.
    assert (Hw : w' = log (EGet c (units_expr signal)) w1).
    { apply bind_inv in H.
      destruct H as [(w2 & rr & Hg & H) | (e & Hg & ->)];
        unfold conn_get in Hg; simplify_eq; [| reflexivity].
      exact (units_tail_unchanged rr _ _ _ H). }
    subst w'. exists (EGet c (units_expr signal) :: new). simpl.
    rewrite Htr. repeat split.
    + constructor; [reflexivity | exact Hnet].
    + discriminate.
    + intros v _. exists c. split; [| reflexivity].
      eapply session_at_intro; eassumption.
  - destruct (get_connection_trace _ _ _ _ _ _ Hc) as (new & Htr & Hnet & Hne).
    exists new. repeat split; try assumption. intros v Hv. discriminate Hv.
Qed.

(** Everything but the remote evaluation leaves the number of
    evaluations as it is. *)
#[local] Instance evals_same_frame : Frame evals_same.
Proof. split; unfold evals_same; congruence. Qed.

Ltac evals_prim :=
  let H := fresh in
  intros ? ? ? H;
  unfold Connection, closeAllTrees, openTree, _get_svr_cached,
    _update_svr_cache, get_server_for_shot, path_exists, makedirs, open_rb,
    open_wb, cPickle_load, cPickle_dump in H;
  repeat case_match; simplify_eq; reflexivity.

Lemma Connection_evals svr : keeps evals_same (Connection E svr).
Proof. evals_prim. Qed.

Lemma closeAllTrees_evals c : keeps evals_same (closeAllTrees E c).
Proof. evals_prim. Qed.

Lemma openTree_evals c tree shot : keeps evals_same (openTree E c tree shot).
Proof. evals_prim. Qed.

Lemma _get_svr_cached_evals svr : keeps evals_same (_get_svr_cached svr).
Proof. evals_prim. Qed.

Lemma _update_svr_cache_evals svr c tree shot :
  keeps evals_same (_update_svr_cache svr c tree shot).
Proof. evals_prim. Qed.

Lemma get_server_for_shot_evals shot :
  keeps evals_same (get_server_for_shot shot).
Proof. evals_prim. Qed.

Lemma path_exists_evals d : keeps evals_same (path_exists d).
Proof. evals_prim. Qed.

Lemma makedirs_evals d : keeps evals_same (makedirs d).
Proof. evals_prim. Qed.

Lemma open_rb_evals p : keeps evals_same (open_rb p).
Proof. evals_prim. Qed.

Lemma open_wb_evals p : keeps evals_same (open_wb p).
Proof. evals_prim. Qed.

Lemma cPickle_load_evals p f : keeps evals_same (cPickle_load p f).
Proof. evals_prim. Qed.

Lemma cPickle_dump_evals v p : keeps evals_same (cPickle_dump E v p).
Proof. evals_prim. Qed.

#[local] Hint Resolve Connection_evals closeAllTrees_evals openTree_evals
  _get_svr_cached_evals _update_svr_cache_evals get_server_for_shot_evals
  path_exists_evals makedirs_evals open_rb_evals open_wb_evals
  cPickle_load_evals cPickle_dump_evals : frames.

Lemma get_connection_evals shot tree :
  keeps evals_same (get_connection E shot tree).
Proof. unfold get_connection. frame. Qed.

Lemma _load_from_cache_evals tree shot expr :
  keeps evals_same (_load_from_cache E tree shot expr).
Proof. unfold _load_from_cache, _cache_path. frame. Qed.

Lemma _save_to_cache_evals tree shot expr data :
  keeps evals_same (_save_to_cache E tree shot expr data).
Proof. unfold _save_to_cache, _cache_path. frame. Qed.

#[local] Hint Resolve get_connection_evals _load_from_cache_evals
  _save_to_cache_evals : frames.

Lemma fetch_signal_evals shot expr tree uc w w' r :
  fetch_signal E shot expr tree uc w = (w', r) ->
  (evals (trace w') <= evals (trace w) + 1)%nat /\
  (forall v, r = Ok v -> evals (trace w') = S (evals (trace w))).
Proof.
  intros H. unfold fetch_signal in H.
  apply bind_inv in H. destruct H as [(w1 & c & Hc & H) | (e & Hc & ->)].
  2:{ rewrite (get_connection_evals _ _ _ _ _ Hc).
      split; [lia | intros v Hv; discriminate]. }
  pose proof (get_connection_evals _ _ _ _ _ Hc) as E1.
  apply bind_inv in H. destruct H as [(w2 & rr & Hg & H) | (e & Hg & ->)].
  2:{ unfold conn_get in Hg. simplify_eq. unfold evals_same in E1.
      unfold evals in *. simpl. split; [lia | intros v Hv; discriminate]. }
  assert (E2 : evals (trace w2) = S (evals (trace w1))).
  { unfold conn_get in Hg. simplify_eq. reflexivity. }
  assert (E3 : evals_same w2 w').
  { revert H. generalize w2 w' r. change (keeps evals_same
      (ty <- lift (unpack2 rr) ;;
       let '(t, y) := ty in
       py_assert (is_ndarray t) ;;;
       py_assert (is_ndarray y) ;;;
       (if uc then _save_to_cache E tree shot expr (PyTuple [t; y])
        else ret tt) ;;;
       ret (PyTuple [t; y]))).
    frame. }
  unfold evals_same in *. split; [lia | intros; lia].
Qed.

Lemma fetch_units_evals shot signal expr tree uc w w' r :
  fetch_units E shot signal expr tree uc w = (w', r) ->
  (evals (trace w') <= evals (trace w) + 1)%nat /\
  (forall v, r = Ok v -> evals (trace w') = S (evals (trace w))).
Proof.
  intros H. unfold fetch_units in H.
  apply bind_inv in H. destruct H as [(w1 & c & Hc & H) | (e & Hc & ->)].
  2:{ rewrite (get_connection_evals _ _ _ _ _ Hc).
      split; [lia | intros v Hv; discriminate]. }
  pose proof (get_connection_evals _ _ _ _ _ Hc) as E1.
  apply bind_inv in H. destruct H as [(w1' & sent & Hf & H) | (e & Hf & ->)].
  2:{ unfold lift in Hf. simplify_eq. unfold evals_same in E1.
      split; [lia | intros v Hv; discriminate]. }
  unfold lift in Hf. simplify_eq.
  apply bind_inv in H. destruct H as [(w2 & rr & Hg & H) | (e & Hg & ->)].
  2:{ unfold conn_get in Hg. simplify_eq. unfold evals_same in E1.
      unfold evals in *. simpl. split; [lia | intros v Hv; discriminate]. }
  assert (E2 : evals (trace w2) = S (evals (trace w1'))).
  { unfold conn_get in Hg. simplify_eq. reflexivity. }
  assert (E3 : evals_same w2 w').
  { revert H. generalize w2 w' r. change (keeps evals_same
      (units <- lift (tostring E rr) ;;
       (if uc then _save_to_cache E tree shot expr (PyStr units)
        else ret tt) ;;;
       ret (PyStr units))).
    frame. }
  unfold evals_same in *. split; [lia | intros; lia].
Qed.


End CacheExtra.

(** ** The cache theorems on a concrete process *)

Lemma save_then_load_witness :
  let w := fresh (Date 2014 1 1) in
  let w1 := fst (_save_to_cache env_ok "mst" 1140101001 "units(ip)"
                                (PyStr "A") w) in
  snd (_load_from_cache env_ok "mst" 1140101001 "units(ip)" w1)
  = Ok (PyStr "A").
Proof.
  intros w w1.
  rewrite (save_then_load env_ok "mst" 1140101001 "units(ip)" (PyStr "A")
             w w1 tt); [reflexivity | vm_compute; reflexivity].
Defined.


Lemma load_is_read_only_witness :
  let w := fresh (Date 2014 1 1) in
  disk_same w (fst (_load_from_cache env_ok "mst" 1140101001 "units(ip)" w)) /\
  ~ (exists w', _load_from_cache env_ok "mst" 1140101001 "units(ip)" w
                = (w', Ok (PyStr "A"))).
Proof.
  intros w.
  destruct (load_is_read_only env_ok "mst" 1140101001 "units(ip)" w)
    as [Hiff Hro].
  split.
  - destruct (Hro _ _ (surjective_pairing _)) as [H _]. exact H.
  - intros H. apply (proj1 (Hiff _)) in H. destruct H as [H _].
    discriminate H.
Defined.

Lemma cache_hit_witness :
  let w := fresh (Date 2014 1 1) in
  let w1 := fst (_save_to_cache env_ok "mst" 1140101001 (signal_expr "ip")
                                (PyStr "not a pair") w) in
  snd (get_signal env_ok 1140101001 "ip" "mst" true w1)
  = Ok (PyStr "not a pair").
Proof.
  intros w w1.
  rewrite (proj1 (cache_hit env_ok 1140101001 "ip" "mst" w1
                            (PyStr "not a pair"))).
  - reflexivity.
  - vm_compute; reflexivity.
  - apply (bool_decide_unpack _). vm_compute. exact I.
Defined.

Lemma units_round_trip_witness :
  let w := fresh (Date 2014 1 1) in
  let w1 := fst (get_signal_units env_ok 1140101001 "ip" "mst" true w) in
  snd (get_signal_units env_ok 1140101001 "ip" "mst" true w1) = Ok (PyStr "A").
Proof.
  intros w w1.
  destruct (units_round_trip env_ok 1140101001 "ip" "mst" w w1 (PyStr "A"))
    as [_ H]; [vm_compute; reflexivity |].
  rewrite H. reflexivity.
Defined.

Lemma failed_call_caches_nothing_witness :
  let w := fresh (Date 2014 1 1) in
  let w1 := fst (get_signal env_disk_full 1140101001 "ip" "mst" true w) in
  exists w2 e2,
    _load_from_cache env_disk_full "mst" 1140101001 (signal_expr "ip") w1
    = (w2, Raise e2).
Proof.
  intros w w1.
  apply (proj1 (failed_call_caches_nothing env_disk_full 1140101001 "ip" "mst"
                  w w1 (Exn IOError "No space left on device"))).
  - right. left. vm_compute; reflexivity.
  - vm_compute; reflexivity.
Defined.


Lemma get_signal_result_checked_witness :
  let w := fresh (Date 2014 1 1) in
  exists v,
    snd (get_signal env_ok 1140101001 "ip" "mst" false w) = Ok v /\
    is_array_pair v = true.
Proof.
  intros w.
  exists (PyTuple [NpArray [NpScalar 0; NpScalar 1];
                   NpArray [NpScalar 5; NpScalar 7]]).
  split; [vm_compute; reflexivity |].
  destruct (get_signal_result_checked env_ok 1140101001 "ip" "mst" false w _ _
              (surjective_pairing _)) as [H _].
  destruct (H (PyTuple [NpArray [NpScalar 0; NpScalar 1];
                        NpArray [NpScalar 5; NpScalar 7]]))
    as [Hp | [Hc _]]; [vm_compute; reflexivity | exact Hp | discriminate Hc].
Defined.

Lemma no_cache_goes_to_network_witness :
  let w := fresh (Date 2014 1 1) in
  off_disk w (fst (get_signal env_ok 1140101001 "ip" "mst" false w)) /\
  off_disk w (fst (get_signal_units env_ok 1140101001 "ip" "mst" false w)).
Proof.
  intros w. split.
  - destruct (proj1 (no_cache_goes_to_network env_ok 1140101001 "ip" "mst"
                       w _ _) (surjective_pairing _)) as [H _].
    exact H.
  - destruct (proj2 (no_cache_goes_to_network env_ok 1140101001 "ip" "mst"
                       w _ _) eq_refl (surjective_pairing _)) as [H _].
    exact H.
Defined.


(** * A failed read of the cache is a miss *)

Section Miss.

Variable E : env.

Lemma _save_to_cache_grows tree shot expr data :
  keeps (grows is_disk) (_save_to_cache E tree shot expr data).
Proof.
  intros w w' r H. rewrite _save_to_cache_unfold in H. cbv zeta in H.
  unfold bind, path_exists, makedirs, open_wb, cPickle_dump, ret in H.
  repeat case_match; simplify_eq;
    match goal with
    | |- grows _ _ ?w2 =>
        let t := eval simpl in (trace w2) in
        match t with
        | ?a :: ?b :: ?c :: ?x :: trace w => exists [a; b; c; x]
        | ?a :: ?b :: ?c :: trace w => exists [a; b; c]
        | ?a :: ?b :: trace w => exists [a; b]
        end
    end; (split; [reflexivity | repeat constructor]).
Qed.

(** The steps of the fetch of [get_signal]: the connection, then the
    remote evaluation of the expression on it, then disk operations
    only. *)
Lemma fetch_signal_steps shot expr tree uc w w' r :
  fetch_signal E shot expr tree uc w = (w', r) ->
  (exists e, get_connection E shot tree w = (w', Raise e) /\ r = Raise e) \/
  (exists w1 c more,
     get_connection E shot tree w = (w1, Ok c) /\
     trace w' = more ++ EGet c expr :: trace w1 /\
     Forall (fun x => is_disk x = true) more).
Proof.
  intros H.
  unfold fetch_signal, bind, lift, py_assert, ret, raise in H.
  destruct (get_connection E shot tree w) as [w1 [c | e]] eqn:Hc.
  2:{ simplify_eq. left. eauto. }
  right. exists w1, c.
  destruct (conn_get E c expr w1) as [w2 [rr | e]] eqn:Hg.
  all: assert (Ht : trace w2 = EGet c expr :: trace w1)
         by (unfold conn_get in Hg; inversion Hg; reflexivity).
  2:{ simplify_eq. exists []. auto. }
  destruct (unpack2 rr) as [[t y] | e]; [| simplify_eq; exists []; auto].
  destruct (is_ndarray t); [| simplify_eq; exists []; auto].
  destruct (is_ndarray y); [| simplify_eq; exists []; auto].
  destruct uc; [| simplify_eq; exists []; auto].
  destruct (_save_to_cache E tree shot expr (PyTuple [t; y]) w2)
    as [w4 [u | e]] eqn:Hs;
    destruct (_save_to_cache_grows _ _ _ _ _ _ _ Hs) as (more & Hm & HF);
    simplify_eq; exists more; rewrite Hm, Ht; auto.
Qed.

(** The steps of the fetch of [get_signal_units]: the connection, the
    second [format], then the remote evaluation of what it gave, then
    disk operations only. *)
Lemma fetch_units_steps shot signal expr tree uc w w' r :
  fetch_units E shot signal expr tree uc w = (w', r) ->
  (exists e, get_connection E shot tree w = (w', Raise e) /\ r = Raise e) \/
  (exists w1 c,
     get_connection E shot tree w = (w1, Ok c) /\
     ((exists e, str_format E expr signal = Raise e /\ w' = w1 /\ r = Raise e) \/
      (exists sent more,
         str_format E expr signal = Ok sent /\
         trace w' = more ++ EGet c sent :: trace w1 /\
         Forall (fun x => is_disk x = true) more))).
Proof.
  intros H.
  unfold fetch_units, bind, lift, ret in H.
  destruct (get_connection E shot tree w) as [w1 [c | e]] eqn:Hc.
  2:{ simplify_eq. left. eauto. }
  right. exists w1, c. split; [reflexivity |].
  destruct (str_format E expr signal) as [sent | e];
    [| simplify_eq; left; eauto].
  right. exists sent.
  destruct (conn_get E c sent w1) as [w2 [rr | e]] eqn:Hg.
  all: assert (Ht : trace w2 = EGet c sent :: trace w1)
         by (unfold conn_get in Hg; inversion Hg; reflexivity).
  2:{ simplify_eq. exists []. auto. }
  destruct (tostring E rr) as [units | e]; [| simplify_eq; exists []; auto].
  destruct uc; [| simplify_eq; exists []; auto].
  destruct (_save_to_cache E tree shot expr (PyStr units) w2)
    as [w4 [u | e]] eqn:Hs;
    destruct (_save_to_cache_grows _ _ _ _ _ _ _ Hs) as (more & Hm & HF);
    simplify_eq; exists more; rewrite Hm, Ht; auto.
Qed.

Lemma attempted_network (new : list event) :
  Forall (fun x => is_network x = true) new -> new <> [] ->
  Exists (fun x => is_network x = true) new.
Proof.
  destruct new as [| x new]; [congruence |].
  intros H _. inversion H; subst. now constructor.
Qed.


End Miss.


(** * Cache paths *)

Lemma slashes_app a b : slashes (a +:+ b) = (slashes a + slashes b)%nat.
Proof.
  induction a as [| x a IH]; [reflexivity |].
  change (slashes (String x (a +:+ b))
          = (slashes (String x a) + slashes b)%nat).
  simpl. rewrite IH. lia.
Qed.

Lemma append_inv_head a x y : a +:+ x = a +:+ y -> x = y.
Proof.
  induction a as [| c a IH]; [auto |].
  change (String c (a +:+ x) = String c (a +:+ y) -> x = y).
  intros H. inversion H. auto.
Qed.

(** Two strings that agree and end in a separator followed by a
    separator-free part agree on both sides of that separator. *)
Lemma split_at_last_slash a b x y :
  slashes x = O -> slashes y = O ->
  a +:+ String "/" x = b +:+ String "/" y -> a = b /\ x = y.
Proof.
  intros Hx Hy. revert b. induction a as [| c a IH]; intros [| c' b] H.
  - change (String "/" x = String "/" y) in H. inversion H. auto.
  - change (String "/" x = String c' (b +:+ String "/" y)) in H.
    inversion H; subst. rewrite slashes_app in Hx. simpl in Hx. lia.
  - change (String c (a +:+ String "/" x) = String "/" y) in H.
    inversion H; subst. rewrite slashes_app in Hy. simpl in Hy. lia.
  - change (String c (a +:+ String "/" x) = String c' (b +:+ String "/" y)) in H.
    inversion H; subst. destruct (IH b) as [-> ->]; auto.
Qed.

Lemma slashes_pretty_N_go x s : slashes (pretty_N_go x s) = slashes s.
Proof.
  revert s. induction (N.lt_wf_0 x) as [x _ IH]; intros s.
  assert (x = 0 \/ 0 < x)%N as [-> | Hpos] by lia.
  - now rewrite pretty_N_go_0.
  - rewrite pretty_N_go_step by exact Hpos.
    rewrite IH by (now apply N.div_lt).
    unfold pretty_N_char. repeat case_match; reflexivity.
Qed.

Lemma slashes_pretty_Z (z : Z) : slashes (pretty z) = O.
Proof.
  assert (HN : forall n : N, slashes (pretty n) = O).
  { intros n. unfold pretty, pretty_N. case_decide; [reflexivity |].
    now rewrite slashes_pretty_N_go. }
  destruct z as [| p | p]; [reflexivity | apply HN |].
  change (slashes (String "-" (pretty (Npos p))) = O). simpl. apply HN.
Qed.

Lemma ends_with_last a s : ends_with a (s +:+ String a EmptyString) = true.
Proof.
  induction s as [| c s IH].
  - simpl. now apply bool_decide_eq_true_2.
  - change (ends_with a (String c (s +:+ String a EmptyString)) = true).
    destruct s as [| c2 s]; exact IH.
Qed.

Section Paths.

Variable E : env.

Lemma cache_dir_unfold tree shot expr :
  fst (_cache_path E tree shot expr)
  = ((rstrip_slash (home E) +:+ "/.mdsplus_cache/" +:+ tree)
     +:+ String "/" (pretty shot))
    +:+ String "/" EmptyString.
Proof.
  unfold _cache_path, expanduser. cbn [fst].
  change ("~/.mdsplus_cache/" +:+ tree +:+ "/" +:+ pretty shot +:+ "/")
    with (String "~" ("/.mdsplus_cache/" +:+ tree +:+ "/" +:+ pretty shot
                      +:+ "/")).
  set (rest := "/.mdsplus_cache/" +:+ tree +:+ "/" +:+ pretty shot +:+ "/").
  assert (Hp : String.prefix "/" rest = true) by reflexivity.
  cbv beta iota zeta. rewrite Hp. cbn [orb].
  rewrite (bool_decide_eq_false_2
             (rstrip_slash (home E) +:+ rest = EmptyString)).
  - subst rest. rewrite !append_assoc_s. reflexivity.
  - destruct (rstrip_slash (home E)); discriminate.
Qed.

Lemma cache_dirs_inj t1 s1 e1 t2 s2 e2 :
  fst (_cache_path E t1 s1 e1) = fst (_cache_path E t2 s2 e2) ->
  t1 = t2 /\ s1 = s2.
Proof.
  rewrite !cache_dir_unfold. intros H.
  apply split_at_last_slash in H; [| reflexivity | reflexivity].
  destruct H as [H _].
  apply split_at_last_slash in H; try apply slashes_pretty_Z.
  destruct H as [Ht Hs]. split.
  - now do 2 apply append_inv_head in Ht.
  - exact (pretty_Z_inj _ _ Hs).
Qed.

Lemma cache_file_unfold tree shot expr :
  slashes (md5_hexdigest E expr) = O ->
  cache_file E tree shot expr
  = ((rstrip_slash (home E) +:+ "/.mdsplus_cache/" +:+ tree)
     +:+ String "/" (pretty shot))
    +:+ String "/" (md5_hexdigest E expr).
Proof.
  intros Hfn.
  change (cache_file E tree shot expr)
    with (path_join (fst (_cache_path E tree shot expr))
                    (md5_hexdigest E expr)).
  rewrite cache_dir_unfold. unfold path_join.
  replace (String.prefix "/" (md5_hexdigest E expr)) with false.
  - rewrite (ends_with_last "/"), orb_true_r.
    rewrite (append_assoc_s _ (String "/" EmptyString)). reflexivity.
  - destruct (md5_hexdigest E expr) as [| c r]; [reflexivity |].
    change (String.prefix "/" (String c r))
      with (if ascii_dec "/" c then String.prefix EmptyString r else false).
    destruct (ascii_dec "/" c) as [<- |]; [| reflexivity].
    simpl in Hfn. discriminate.
Qed.

(** X22.  As path strings, the directory [_cache_path] builds
    determines the tree and the shot, and, with digests free of path
    separators (as hexadecimal digests are), the file path determines
    tree, shot and digest: two keys get the same file path only if tree
    and shot agree and the expressions have the same digest.  (Whether
    two different strings name one directory is for the file system to
    say.) *)
Theorem cache_paths_separate t1 s1 e1 t2 s2 e2 :
  (fst (_cache_path E t1 s1 e1) = fst (_cache_path E t2 s2 e2) ->
   t1 = t2 /\ s1 = s2) /\
  (slashes (md5_hexdigest E e1) = O -> slashes (md5_hexdigest E e2) = O ->
   cache_file E t1 s1 e1 = cache_file E t2 s2 e2 ->
   t1 = t2 /\ s1 = s2 /\ md5_hexdigest E e1 = md5_hexdigest E e2).
Proof.
  split; [apply cache_dirs_inj |].
  intros H1 H2 H. rewrite !cache_file_unfold in H by assumption.
  apply split_at_last_slash in H; [| assumption | assumption].
  destruct H as [Hd Hfn].
  apply split_at_last_slash in Hd; try apply slashes_pretty_Z.
  destruct Hd as [Ht Hs]. split; [| split].
  - now do 2 apply append_inv_head in Ht.
  - exact (pretty_Z_inj _ _ Hs).
  - exact Hfn.
Qed.

End Paths.

Lemma cache_paths_separate_witness :
  cache_file env_ok "mst" 1140101001 "units(ip)"
  <> cache_file env_ok "mst" 1140101002 "units(ip)".
Proof.
  intros H.
  destruct (proj2 (cache_paths_separate env_ok "mst" 1140101001 "units(ip)"
                     "mst" 1140101002 "units(ip)"))
    as (_ & Hs & _); [reflexivity | reflexivity | exact H |].
  discriminate Hs.
Defined.

(** * Round trips of the shot encoding and of the session table *)

(** X23.  For a calendar date, decoding the minimum shot gives the date
    back exactly when the year is from 2000 to 2999; the shot number
    keeps only the year modulo 1000, so dates a thousand years apart
    have the same shot numbers. *)
Theorem shot_round_trip_domain (d : date) :
  valid_date d ->
  (shot_to_date (min_shot_for_date d) = Ok d <-> 2000 <= year d <= 2999) /\
  min_shot_for_date (Date (year d + 1000) (month d) (day d))
  = min_shot_for_date d.
Proof.
  destruct d as [y m dd]. unfold valid_date. simpl. intros Hok.
  destruct (date_ok_bounds _ _ _ Hok) as (Hy & Hm & Hd).
  split.
  - unfold min_shot_for_date. simpl.
    pose proof (Z.mod_pos_bound y 1000 ltac:(lia)) as Hk.
    destruct (shot_fields (y mod 1000 + 100) m dd 1) as (E1 & E2 & E3 & _);
      try lia.
    unfold shot_to_date. cbv zeta in *. rewrite E1, E2, E3.
    split.
    + intros H. apply datetime_date_inv in H as [_ H].
      injection H; intros; lia.
    + intros Hr.
      replace (y mod 1000 + 100 + 1900) with y.
      * now apply datetime_date_ok.
      * assert (y mod 1000 = y - 2000); [| lia].
        symmetry. apply (Z.mod_unique _ _ 2); lia.
  - unfold min_shot_for_date. simpl.
    replace ((y + 1000) mod 1000) with (y mod 1000); [reflexivity |].
    rewrite <- (Z.mod_add y 1 1000) by lia. f_equal.
Qed.

Lemma shot_round_trip_domain_witness :
  shot_to_date (min_shot_for_date (Date 2950 6 15)) = Ok (Date 2950 6 15) /\
  min_shot_for_date (Date 3014 1 1) = min_shot_for_date (Date 2014 1 1).
Proof.
  split.
  - apply (proj1 (shot_round_trip_domain (Date 2950 6 15) eq_refl)).
    simpl. lia.
  - exact (proj2 (shot_round_trip_domain (Date 2014 1 1) eq_refl)).
Defined.

(** X24.  What [_update_svr_cache] records for a server,
    [_get_svr_cached] reports for that server; the entries of the other
    servers are reported as before, and a server never recorded is
    reported as three [None]s. *)
Theorem svr_cache_round_trip w svr c tree shot :
  let w1 := fst (_update_svr_cache svr c tree shot w) in
  snd (_get_svr_cached svr w1) = Ok (Some c, Some tree, Some shot) /\
  (forall svr', svr' <> svr ->
     snd (_get_svr_cached svr' w1) = snd (_get_svr_cached svr' w)) /\
  (forall svr', _SVR_CONNS w !! svr' = None ->
     snd (_get_svr_cached svr' w) = Ok (None, None, None)).
Proof.
  intros w1. unfold _get_svr_cached, _update_svr_cache in *. simpl.
  split; [| split].
  - now rewrite !lookup_insert_eq.
  - intros svr' Hne. now rewrite !lookup_insert_ne by congruence.
  - intros svr' ->. reflexivity.
Qed.

Lemma svr_cache_round_trip_witness :
  let w := fresh (Date 2014 1 1) in
  let w1 := fst (_update_svr_cache aurora 0%nat "mst" 1140101001 w) in
  snd (_get_svr_cached dave w1) = Ok (None, None, None).
Proof.
  intros w w1.
  destruct (svr_cache_round_trip w aurora 0%nat "mst" 1140101001)
    as (_ & Hother & Hnone).
  fold w1 in Hother. rewrite (Hother dave); [| discriminate].
  apply Hnone. reflexivity.
Defined.
